(** * Bounded-lag lexicographic shortest-path search (outputs/2122_D.cpp)

    A shallow embedding of [solve] from [src/outputs/2122_D.cpp] and the
    properties of it that the specification states.

    Conventions of the embedding.
    - [long long] and [int] values are integers of [Z].  The narrowing
      conversions of the source ([long long] to [int], [size_t] to [int])
      are written out with [to_int].  Additions are exact: on a well-formed
      input every time and wait the search handles stays below 2^31 (the
      invariant [inv]), and [INF + C] is below 2^63.
    - A [vector] is a [list]; every indexed access goes through [vget] /
      [vset], which return [None] outside the bounds (undefined behaviour in
      the source).  The loop body is therefore a partial function.
    - The [priority_queue] is the list of its elements.  [pq.top()] may be
      any element that no other element is strictly smaller than under
      [State::operator>]; which of several equal ones is returned depends on
      the heap layout, so popping is a relation ([pq_pop]).  [pop_min] is one
      executable choice of it. *)

From Stdlib Require Import ZArith Lia.
From stdpp Require Import base option list relations.

Local Open Scope Z_scope.

(** ** Constants and machine integers *)

Definition INF : Z := 1000000000000000000.
Definition C : Z := 600.

Definition int_max : Z := 2147483647.

(** Conversion to a 32-bit [int] (two's complement wrap-around). *)
Definition to_int (z : Z) : Z := (z + 2147483648) `mod` 4294967296 - 2147483648.

(** ** Vectors *)

Definition vget {A} (l : list A) (i : Z) : option A :=
  if 0 <=? i then l !! Z.to_nat i else None.

Definition vset {A} (l : list A) (i : Z) (x : A) : option (list A) :=
  if (0 <=? i) && (i <? Z.of_nat (length l)) then Some (<[Z.to_nat i := x]> l)
  else None.

(** [m[i][j]] and [m[i][j] = x] on a vector of vectors. *)
Definition vget2 {A} (m : list (list A)) (i j : Z) : option A :=
  row ← vget m i; vget row j.

Definition vset2 {A} (m : list (list A)) (i j : Z) (x : A) : option (list (list A)) :=
  row ← vget m i; row' ← vset row j x; vset m i row'.

(** ** The search state and its order *)

(** [struct State]; the field [u] of the source is [node] here. *)
Record State := mkState { total_time : Z; wait_time : Z; node : Z }.

(** [State::operator>]. *)
Definition State_gt (a b : State) : bool :=
  if negb (total_time a =? total_time b) then total_time a >? total_time b
  else wait_time a >? wait_time b.

(** ** The graph *)

Record graph := mkGraph {
  n : Z;
  adj : list (list (Z * Z));
  deg : list Z
}.

(** One iteration of the input loop: [adj_input_order[u].push_back({v, 0});
    adj_input_order[v].push_back({u, 0})]. *)
Definition push_edge (a : list (list (Z * Z))) (e : Z * Z) : option (list (list (Z * Z))) :=
  ru ← vget a e.1;
  a1 ← vset a e.1 (ru ++ [(e.2, 0)]);
  rv ← vget a1 e.2;
  vset a1 e.2 (rv ++ [(e.1, 0)]).

Fixpoint read_edges (a : list (list (Z * Z))) (edges : list (Z * Z)) : option (list (list (Z * Z))) :=
  match edges with
  | [] => Some a
  | e :: es => a' ← push_edge a e; read_edges a' es
  end.

(** The inner loop at lines 43-46: entries are renumbered 1, 2, ... in
    input order. *)
Fixpoint number_from (edge_idx : Z) (row : list (Z * Z)) : list (Z * Z) :=
  match row with
  | [] => []
  | p :: r => (p.1, edge_idx) :: number_from (edge_idx + 1) r
  end.

(** Lines 39-47: rows [1..n] are filled, row [0] stays empty. *)
Definition number_rows (aio : list (list (Z * Z))) : list (list (Z * Z)) :=
  match aio with
  | [] => []
  | _ :: rest => [] :: (number_from 1 <$> rest)
  end.

Definition degrees (aio : list (list (Z * Z))) : list Z :=
  match aio with
  | [] => []
  | _ :: rest => 0 :: ((λ row, to_int (Z.of_nat (length row))) <$> rest)
  end.

Definition build (n0 : Z) (edges : list (Z * Z)) : option graph :=
  aio ← read_edges (replicate (Z.to_nat (n0 + 1)) []) edges;
  Some (mkGraph n0 (number_rows aio) (degrees aio)).

(** ** The search configuration *)

Record config := mkConfig {
  min_t : list Z;
  min_w : list (list Z);
  pq : list State;
  ans : Z * Z
}.

Definition set_pq (q : list State) (c : config) : config :=
  mkConfig (min_t c) (min_w c) q (ans c).

Definition set_ans (a : Z * Z) (c : config) : config :=
  mkConfig (min_t c) (min_w c) (pq c) a.

(** Lines 49-58. *)
Definition init (n0 : Z) : option config :=
  let mt0 := replicate (Z.to_nat (n0 + 1)) INF in
  let mw0 := replicate (Z.to_nat (n0 + 1)) (replicate (Z.to_nat C) INF) in
  mt ← vset mt0 1 0;
  mw ← vset2 mw0 1 0 0;
  Some (mkConfig mt mw [mkState 0 0 1] (INF, INF)).

(** ** The loop body *)

(** Lines 72-76. *)
Definition record_ans (g : graph) (s : State) (a : Z * Z) : Z * Z :=
  if node s =? n g then
    if (total_time s <? a.1) || ((total_time s =? a.1) && (wait_time s <? a.2))
    then (total_time s, wait_time s)
    else a
  else a.

(** Lines 80-90, option 1 (wait). *)
Definition relax_wait (s : State) (dt : Z) (c : config) : option config :=
  let t_new_wait := total_time s + 1 in
  let w_new_wait := wait_time s + 1 in
  mt_u ← vget (min_t c) (node s);
  if t_new_wait <? mt_u + C then
    let dt_new := dt + 1 in
    cur ← vget2 (min_w c) (node s) dt_new;
    if w_new_wait <? cur then
      mw ← vset2 (min_w c) (node s) dt_new w_new_wait;
      Some (mkConfig (min_t c) mw (mkState t_new_wait w_new_wait (node s) :: pq c) (ans c))
    else Some c
  else Some c.

(** Lines 95-101: the first entry whose number is [idx], or [-1]. *)
Fixpoint find_edge (row : list (Z * Z)) (idx : Z) : Z :=
  match row with
  | [] => -1
  | edge :: r => if edge.2 =? idx then edge.1 else find_edge r idx
  end.

(** Lines 103-119: the successor [(t_new_move, w_new_move, v)] is offered to
    the tables. *)
Definition accept_move (t_new_move w_new_move v : Z) (c : config) : option config :=
  mt_v ← vget (min_t c) v;
  if t_new_move <? mt_v then
    mt ← vset (min_t c) v t_new_move;
    mw ← vset2 (min_w c) v 0 w_new_move;
    Some (mkConfig mt mw (mkState t_new_move w_new_move v :: pq c) (ans c))
  else
    let dt_new := to_int (t_new_move - mt_v) in
    if dt_new <? C then
      cur ← vget2 (min_w c) v dt_new;
      if w_new_move <? cur then
        mw ← vset2 (min_w c) v dt_new w_new_move;
        Some (mkConfig (min_t c) mw (mkState t_new_move w_new_move v :: pq c) (ans c))
      else Some c
    else Some c.

(** Lines 93-101: the node the move action leads to, if any. *)
Definition move_target (g : graph) (x t : Z) : option (option Z) :=
  d ← vget (deg g) x;
  if 0 <? d then
    let edge_idx_to_take := to_int (Z.rem t d + 1) in
    row ← vget (adj g) x;
    let v := find_edge row edge_idx_to_take in
    Some (if v =? -1 then None else Some v)
  else Some None.

(** Lines 92-121, option 2 (move). *)
Definition relax_move (g : graph) (s : State) (c : config) : option config :=
  tgt ← move_target g (node s) (total_time s);
  match tgt with
  | Some v => accept_move (total_time s + 1) (wait_time s) v c
  | None => Some c
  end.

(** Lines 64-121 for the popped state [s]; [c] is the configuration after
    [pq.pop()].  [None] is an access outside a vector. *)
Definition loop_body (g : graph) (s : State) (c : config) : option config :=
  mt_u ← vget (min_t c) (node s);
  if (mt_u =? INF) || (total_time s >? mt_u + C) then Some c
  else
    let dt := to_int (total_time s - mt_u) in
    if dt >=? C then Some c
    else
      cur ← vget2 (min_w c) (node s) dt;
      if wait_time s >? cur then Some c
      else
        let c1 := set_ans (record_ans g s (ans c)) c in
        if total_time s >? (ans c1).1 then Some c1
        else
          c2 ← relax_wait s dt c1;
          relax_move g s c2.

(** ** The priority queue *)

(** [s] may be returned by [pq.top()]: it is in the queue and no element is
    strictly smaller. *)
Definition pq_pop (q : list State) (s : State) (q' : list State) : Prop :=
  (∃ q1 q2, q = q1 ++ s :: q2 ∧ q' = q1 ++ q2) ∧
  Forall (λ x, State_gt s x = false) q.

(** An executable choice: the most recently pushed among the smallest. *)
Fixpoint pop_min (q : list State) : option (State * list State) :=
  match q with
  | [] => None
  | x :: r =>
      match pop_min r with
      | None => Some (x, [])
      | Some (y, r') => if State_gt x y then Some (y, x :: r') else Some (x, r)
      end
  end.

(** ** The loop *)

(** One iteration of [while (!pq.empty())]. *)
Definition step (g : graph) (c c' : config) : Prop :=
  ∃ s q', pq_pop (pq c) s q' ∧ loop_body g s (set_pq q' c) = Some c'.

(** An iteration that reads or writes outside a vector. *)
Definition step_ub (g : graph) (c : config) : Prop :=
  ∃ s q', pq_pop (pq c) s q' ∧ loop_body g s (set_pq q' c) = None.

(** [solve] on the input [(n0, edges)] prints [out]. *)
Definition prints (n0 : Z) (edges : list (Z * Z)) (out : Z * Z) : Prop :=
  ∃ g c0 c, build n0 edges = Some g ∧ init n0 = Some c0 ∧
            rtc (step g) c0 c ∧ pq c = [] ∧ ans c = out.

(** The loop with [pop_min] as the queue, for at most [fuel] iterations. *)
Fixpoint run (g : graph) (fuel : nat) (c : config) : option config :=
  match fuel with
  | O => None
  | S k =>
      match pop_min (pq c) with
      | None => Some c
      | Some (s, q') => c' ← loop_body g s (set_pq q' c); run g k c'
      end
  end.

Definition solve (fuel : nat) (n0 : Z) (edges : list (Z * Z)) : option (Z * Z) :=
  g ← build n0 edges; c0 ← init n0; c ← run g fuel c0; Some (ans c).

(** ** The walks of the specification *)

(** The incident-edge list of [x] in input order: every edge contributes its
    other endpoint (a loop contributes twice, as in the input loop). *)
Fixpoint neighbors (edges : list (Z * Z)) (x : Z) : list Z :=
  match edges with
  | [] => []
  | e :: es =>
      (if e.1 =? x then [e.2] else []) ++ (if e.2 =? x then [e.1] else []) ++
      neighbors es x
  end.

(** The edge selector of the specification: [edges(x)[t mod d(x)]], and no
    move when [d(x) = 0]. *)
Definition select (edges : list (Z * Z)) (x t : Z) : option Z :=
  let nb := neighbors edges x in
  if Z.of_nat (length nb) =? 0 then None
  else nb !! Z.to_nat (t `mod` Z.of_nat (length nb)).

(** [walk edges x t w]: some walk from node 1 is at node [x] at tick [t]
    having waited [w] times. *)
Inductive walk (edges : list (Z * Z)) : Z → Z → Z → Prop :=
| walk_start : walk edges 1 0 0
| walk_wait x t w : walk edges x t w → walk edges x (t + 1) (w + 1)
| walk_move x t w y :
    walk edges x t w → select edges x t = Some y → walk edges y (t + 1) w.

(** Lexicographic order on (time, wait) pairs. *)
Definition lex_le (a b : Z * Z) : Prop := a.1 < b.1 ∨ (a.1 = b.1 ∧ a.2 ≤ b.2).

(** [(T, W)] is the lexicographically least (arrival, wait) pair at node [n0]. *)
Definition lex_min_arrival (n0 : Z) (edges : list (Z * Z)) (T W : Z) : Prop :=
  walk edges n0 T W ∧ ∀ t w, walk edges n0 t w → lex_le (T, W) (t, w).

(** Well-formed input: at least one node, endpoints in [1..n0], and sizes for
    which the [int] counters and offsets of the source do not overflow. *)
Definition wf_input (n0 : Z) (edges : list (Z * Z)) : Prop :=
  1 ≤ n0 ∧ (n0 + 1) * C ≤ int_max ∧ 2 * Z.of_nat (length edges) ≤ int_max ∧
  Forall (λ e, (1 ≤ e.1 ≤ n0) ∧ (1 ≤ e.2 ≤ n0)) edges.

(** ** Definitions used by the proofs *)

(** Entries as the input loop stores them, before the renumbering. *)
Definition pairs_of (nb : list Z) : list (Z * Z) := (λ v, (v, 0)) <$> nb.

Fixpoint sumZ (l : list Z) : Z :=
  match l with
  | [] => 0
  | y :: r => y + sumZ r
  end.

(** Number of entries of [min_t] that are no longer [INF]. *)
Fixpoint finite_count (l : list Z) : Z :=
  match l with
  | [] => 0
  | y :: r => (if y =? INF then 0 else 1) + finite_count r
  end.

Definition tables_shape (n0 : Z) (c : config) : Prop :=
  Z.of_nat (length (min_t c)) = n0 + 1 ∧
  Z.of_nat (length (min_w c)) = n0 + 1 ∧
  ∀ i row, vget (min_w c) i = Some row → Z.of_nat (length row) = C.

(** The main invariant; [tc] is the time of the state popped last. *)
Record inv (n0 : Z) (edges : list (Z * Z)) (c : config) (tc : Z) : Prop := {
  inv_shape : tables_shape n0 c;
  inv_tc : 0 ≤ tc < finite_count (min_t c) * C;
  inv_pq : ∀ s, s ∈ pq c →
    1 ≤ node s ≤ n0 ∧ 0 ≤ wait_time s ≤ total_time s ∧ tc ≤ total_time s ∧
    walk edges (node s) (total_time s) (wait_time s) ∧
    ∃ m x, vget (min_t c) (node s) = Some m ∧ m ≠ INF ∧
           m ≤ total_time s < m + C ∧
           vget2 (min_w c) (node s) (total_time s - m) = Some x ∧
           x ≤ wait_time s;
  inv_mt : ∀ v m, vget (min_t c) v = Some m → m ≠ INF →
    1 ≤ v ≤ n0 ∧ 0 ≤ m ≤ tc + 1 ∧ m ≤ (finite_count (min_t c) - 1) * C ∧
    ∃ w, walk edges v m w;
  inv_mw : ∀ v d x, vget2 (min_w c) v d = Some x → x ≠ INF →
    0 ≤ x < INF ∧ ∃ m, vget (min_t c) v = Some m ∧ m ≠ INF;
  inv_ans : ans c = (INF, INF) ∨ walk edges n0 (ans c).1 (ans c).2;
  inv_src : vget (min_t c) 1 = Some 0 ∧ ∃ x, vget2 (min_w c) 1 0 = Some x ∧ x ≤ 0
}.

(** The two ways in which a successor [(t, w, v)] enters the tables. *)
Definition improve (v t w : Z) (c c' : config) : Prop :=
  ∃ m cur mw, vget (min_t c) v = Some m ∧ m ≠ INF ∧ m ≤ t < m + C ∧
    vget2 (min_w c) v (t - m) = Some cur ∧ w < cur ∧
    vset2 (min_w c) v (t - m) w = Some mw ∧
    c' = mkConfig (min_t c) mw (mkState t w v :: pq c) (ans c).

Definition discover (v t w : Z) (c c' : config) : Prop :=
  ∃ m mt mw, vget (min_t c) v = Some m ∧ t < m ∧
    vset (min_t c) v t = Some mt ∧ vset2 (min_w c) v 0 w = Some mw ∧
    c' = mkConfig mt mw (mkState t w v :: pq c) (ans c).

(** The tables know node [v] at time [t] with a wait of at most [w], unless
    [t] is outside the window of [v]. *)
Definition covered (c : config) (v t w : Z) : Prop :=
  ∃ m, vget (min_t c) v = Some m ∧ m ≠ INF ∧ m ≤ t ∧
       (t < m + C → ∃ x, vget2 (min_w c) v (t - m) = Some x ∧ x ≤ w).

(** The termination measure: every push lowers a table entry, every
    iteration removes one element of the queue. *)
Definition potential (c : config) : Z :=
  2 * (sumZ (min_t c) + sumZ (sumZ <$> min_w c)) + Z.of_nat (length (pq c)).

(** [c'] is [c] after some successors were offered to the tables. *)
Record extends (c c' : config) : Prop := {
  ext_mt : ∀ v m, vget (min_t c) v = Some m → m ≠ INF → vget (min_t c') v = Some m;
  ext_mw : ∀ v d x, vget2 (min_w c) v d = Some x →
    ∃ x', vget2 (min_w c') v d = Some x' ∧ x' ≤ x;
  ext_new : ∀ v m d x,
    vget (min_t c') v = Some m → m ≠ INF → vget2 (min_w c') v d = Some x → x ≠ INF →
    (vget (min_t c) v = Some m ∧ vget2 (min_w c) v d = Some x) ∨
    mkState (m + d) x v ∈ pq c';
  ext_pq : ∀ s, s ∈ pq c → s ∈ pq c';
  ext_ans : ans c' = ans c;
  ext_pot : potential c' ≤ potential c
}.

Definition offer (v t w : Z) (c c' : config) : Prop :=
  c' = c ∨ improve v t w c c' ∨ discover v t w c c'.

Definition lex_lt (a b : Z * Z) : Prop := a.1 < b.1 ∨ (a.1 = b.1 ∧ a.2 < b.2).

(** What an iteration that pops [s] from [c] (leaving [q']) does, in terms of
    the table entry [x] of [s]. *)
Definition outcome (g : graph) (edges : list (Z * Z)) (c : config) (s : State)
    (q' : list State) (x : Z) (c' : config) : Prop :=
  let cp := set_pq q' c in
  let c1 := set_ans (record_ans g s (ans c)) cp in
  (x < wait_time s ∧ c' = cp) ∨
  (x = wait_time s ∧
   (((ans c1).1 < total_time s ∧ c' = c1) ∨
    (total_time s ≤ (ans c1).1 ∧
     ∃ c2, extends c1 c2 ∧ extends c2 c' ∧
       covered c2 (node s) (total_time s + 1) (wait_time s + 1) ∧
       ∀ y, select edges (node s) (total_time s) = Some y →
            covered c' y (total_time s + 1) (wait_time s)))).

(** Entry [x] of node [v] at time [t] has been expanded: both successors are
    covered. *)
Definition expanded (edges : list (Z * Z)) (c : config) (v t x : Z) : Prop :=
  covered c v (t + 1) (x + 1) ∧
  ∀ y, select edges v t = Some y → covered c y (t + 1) x.

(** Every live table entry is either still in the queue or already dealt
    with. *)
Record complete (n0 : Z) (edges : list (Z * Z)) (c : config) : Prop := {
  cm_exp : ∀ v m d x,
    vget (min_t c) v = Some m → m ≠ INF → vget2 (min_w c) v d = Some x → x ≠ INF →
    m + d ≤ (ans c).1 →
    mkState (m + d) x v ∈ pq c ∨ expanded edges c v (m + d) x;
  cm_ans : ∀ m d x,
    vget (min_t c) n0 = Some m → m ≠ INF → vget2 (min_w c) n0 d = Some x → x ≠ INF →
    mkState (m + d) x n0 ∈ pq c ∨ lex_le (ans c) (m + d, x)
}.

(** Centre 1, leaves 2..602; the edge to the target 602 is the last of the
    601 edges of the centre, so it is selected at the times 600 mod 601. *)
Definition star_edges : list (Z * Z) := (λ i, (1, i)) <$> seqZ 2 601.

(** The acceptance rule for a successor [(v, t, w)], where [mt_v] is
    [min_t[v]] before the offer: without a new minimum time the state is
    pushed exactly when its offset is below [C] and [w] improves the slot,
    which then holds [w]; with a new minimum time the state is pushed, the
    minimum and slot 0 are set and the other slots keep their values. *)
Definition accept_rule (v t w mt_v : Z) (c c' : config) : Prop :=
  (pq c' = mkState t w v :: pq c ∨ c' = c) ∧
  (mt_v ≤ t →
     (pq c' = mkState t w v :: pq c ↔
        t - mt_v < C ∧ ∃ cur, vget2 (min_w c) v (t - mt_v) = Some cur ∧ w < cur) ∧
     (pq c' = mkState t w v :: pq c →
        min_t c' = min_t c ∧ vget2 (min_w c') v (t - mt_v) = Some w)) ∧
  (t < mt_v →
     pq c' = mkState t w v :: pq c ∧
     vget (min_t c') v = Some t ∧ vget2 (min_w c') v 0 = Some w ∧
     ∀ d, d ≠ 0 → vget2 (min_w c') v d = vget2 (min_w c) v d).

(** [(v, t, w)] is offered to the tables of [c] by the loop body, as the move
    successor or as the wait successor of a popped state, and [c'] results. *)
Definition offered (v t w mt_v : Z) (c c' : config) : Prop :=
  (accept_move t w v c = Some c' ∧ t - mt_v ≤ int_max) ∨
  (∃ s, node s = v ∧ total_time s + 1 = t ∧ wait_time s + 1 = w ∧
        relax_wait s (total_time s - mt_v) c = Some c').

(** Small inputs used below. *)
Definition single_edge : list (Z * Z) := [(1, 2)].

Definition single_edge_graph : graph := mkGraph 2 [[]; [(2, 1)]; [(1, 1)]] [0; 1; 1].

Definition triangle : list (Z * Z) := [(1, 2); (2, 3); (1, 3)].

(** The configuration of lines 49-58 for two nodes. *)
Definition init_two : config :=
  mkConfig [INF; 0; INF]
    [replicate 600 INF; 0 :: replicate 599 INF; replicate 600 INF]
    [mkState 0 0 1] (INF, INF).

(** A configuration with two-slot tables, for evaluating the loop body. *)
Definition tiny_graph : graph := mkGraph 1 [[]; []] [0; 0].

Definition tiny_config : config := mkConfig [INF; 0] [[]; [0; INF]] [] (INF, INF).

Definition tiny_config' : config :=
  mkConfig [INF; 0] [[]; [0; 1]] [mkState 1 1 1] (0, 0).

(** The search on the graph with one node and no edge: the initial
    configuration and the configurations after one and after two iterations. *)
Definition init_one : config :=
  mkConfig [INF; 0] [replicate 600 INF; 0 :: replicate 599 INF]
    [mkState 0 0 1] (INF, INF).

Definition after_one : config :=
  mkConfig [INF; 0] [replicate 600 INF; 0 :: 1 :: replicate 598 INF]
    [mkState 1 1 1] (0, 0).

Definition after_two : config :=
  mkConfig [INF; 0] [replicate 600 INF; 0 :: 1 :: replicate 598 INF] [] (0, 0).

(** [y] is joined to [x] by an edge of the input. *)
Definition adjacent (edges : list (Z * Z)) (x y : Z) : Prop :=
  y ∈ neighbors edges x.

(** * Proofs *)

Ltac zb :=
  repeat match goal with
  | |- context [?a <? ?b] => destruct (Z.ltb_spec a b)
  | |- context [?a <=? ?b] => destruct (Z.leb_spec a b)
  | |- context [?a >? ?b] => destruct (Z.gtb_spec a b)
  | |- context [?a >=? ?b] => destruct (Z.geb_spec a b)
  | |- context [?a =? ?b] => destruct (Z.eqb_spec a b)
  | H : context [?a <? ?b] |- _ => destruct (Z.ltb_spec a b)
  | H : context [?a <=? ?b] |- _ => destruct (Z.leb_spec a b)
  | H : context [?a >? ?b] |- _ => destruct (Z.gtb_spec a b)
  | H : context [?a >=? ?b] |- _ => destruct (Z.geb_spec a b)
  | H : context [?a =? ?b] |- _ => destruct (Z.eqb_spec a b)
  end; simpl in *.

(** ** Vectors *)

Section Vectors.
Context {A : Type}.
Implicit Types (l : list A) (m : list (list A)).

Lemma vget_Some l i x :
  vget l i = Some x ↔ 0 ≤ i ∧ l !! Z.to_nat i = Some x.
Proof. unfold vget. zb; naive_solver lia. Qed.

Lemma vget_range l i x : vget l i = Some x → 0 ≤ i < Z.of_nat (length l).
Proof.
  intros [? H%lookup_lt_Some]%vget_Some. lia.
Qed.

Lemma vget_is_Some l i : 0 ≤ i < Z.of_nat (length l) → is_Some (vget l i).
Proof.
  intros ?. destruct (lookup_lt_is_Some_2 l (Z.to_nat i)) as [x Hx]; [lia|].
  exists x. apply vget_Some. split; [lia|done].
Qed.

Lemma vget_None l i : vget l i = None → i < 0 ∨ Z.of_nat (length l) ≤ i.
Proof.
  intros H. destruct (decide (0 ≤ i < Z.of_nat (length l))) as [Hr|]; [|lia].
  destruct (vget_is_Some l i Hr) as [? ?]. congruence.
Qed.

Lemma vset_Some l i x l' :
  vset l i x = Some l' ↔
  0 ≤ i < Z.of_nat (length l) ∧ l' = <[Z.to_nat i := x]> l.
Proof. unfold vset. zb; naive_solver lia. Qed.

Lemma vset_is_Some l i x : 0 ≤ i < Z.of_nat (length l) → is_Some (vset l i x).
Proof. intros ?. eexists. apply vset_Some. eauto. Qed.

Lemma vset_length l i x l' : vset l i x = Some l' → length l' = length l.
Proof. intros [_ ->]%vset_Some. apply length_insert. Qed.

Lemma vget_vset l i x l' j :
  vset l i x = Some l' →
  vget l' j = if decide (j = i) then Some x else vget l j.
Proof.
  intros [Hr ->]%vset_Some. unfold vget. case_decide as Hji.
  - subst j. zb; [|lia]. apply list_lookup_insert_eq. lia.
  - zb; [|done]. apply list_lookup_insert_ne. lia.
Qed.

Lemma vget_vset_eq l i x l' : vset l i x = Some l' → vget l' i = Some x.
Proof. intros H. rewrite (vget_vset _ _ _ _ i H). by rewrite decide_True. Qed.

Lemma vget_vset_ne l i x l' j :
  vset l i x = Some l' → j ≠ i → vget l' j = vget l j.
Proof. intros H ?. rewrite (vget_vset _ _ _ _ j H). by rewrite decide_False. Qed.

End Vectors.

Section Vectors2.
Context {A : Type}.
Implicit Types (l : list A) (m : list (list A)).

Lemma vget2_Some m i j x :
  vget2 m i j = Some x ↔ ∃ row, vget m i = Some row ∧ vget row j = Some x.
Proof. unfold vget2. destruct (vget m i); naive_solver. Qed.

Lemma vset2_Some m i j x m' :
  vset2 m i j x = Some m' ↔
  ∃ row row', vget m i = Some row ∧ vset row j x = Some row' ∧
              vset m i row' = Some m'.
Proof.
  unfold vset2. split.
  - destruct (vget m i) as [row|]; simpl; [|done].
    destruct (vset row j x) as [row'|] eqn:Hs; simpl; [|done]. eauto.
  - intros (row & row' & -> & Hs & Hm). simpl. by rewrite Hs.
Qed.

Lemma vset2_length m i j x m' : vset2 m i j x = Some m' → length m' = length m.
Proof. intros (?&?&?&?&?)%vset2_Some. by eapply vset_length. Qed.

Lemma vget2_vset2 m i j x m' i' j' :
  vset2 m i j x = Some m' →
  vget2 m' i' j' = if decide (i' = i ∧ j' = j) then Some x else vget2 m i' j'.
Proof.
  intros (row&row'&Hg&Hs&Hm)%vset2_Some. unfold vget2.
  rewrite (vget_vset _ _ _ _ i' Hm). destruct (decide (i' = i)) as [->|]; simpl.
  - rewrite Hg. simpl. rewrite (vget_vset _ _ _ _ j' Hs).
    destruct (decide (j' = j)) as [->|].
    + by rewrite decide_True.
    + rewrite decide_False; [done|]. by intros [_ ?].
  - rewrite decide_False; [done|]. by intros [? _].
Qed.

Lemma vset2_rows m i j x m' k row' :
  vset2 m i j x = Some m' → vget m' k = Some row' →
  ∃ row, vget m k = Some row ∧ length row' = length row.
Proof.
  intros (r&r'&Hg&Hs&Hm)%vset2_Some. rewrite (vget_vset _ _ _ _ k Hm).
  case_decide; [|eauto]. intros [= <-]. subst k. exists r. split; [done|].
  by eapply vset_length.
Qed.

Lemma vset2_is_Some m i j x :
  is_Some (vget2 m i j) → is_Some (vset2 m i j x).
Proof.
  intros [y (row&Hr&Hj)%vget2_Some]. unfold vset2. rewrite Hr. simpl.
  destruct (vset_is_Some row j x (vget_range _ _ _ Hj)) as [row' ->]. simpl.
  apply vset_is_Some. by eapply vget_range.
Qed.
End Vectors2.

(** ** Machine integers *)

Lemma to_int_small z : -2147483648 ≤ z ≤ int_max → to_int z = z.
Proof.
  unfold to_int, int_max. intros ?. rewrite Z.mod_small; lia.
Qed.

(** ** The graph built from the input *)

Section Graph.
Implicit Types (a : list (list (Z * Z))) (edges : list (Z * Z)).

Lemma push_edge_spec a e :
  0 ≤ e.1 < Z.of_nat (length a) → 0 ≤ e.2 < Z.of_nat (length a) →
  ∃ a', push_edge a e = Some a' ∧ length a' = length a ∧
    ∀ x row, vget a x = Some row →
      vget a' x = Some (row ++ pairs_of (neighbors [e] x)).
Proof.
  destruct e as [u v]. simpl. intros H1 H2. unfold push_edge. simpl.
  destruct (vget_is_Some a u H1) as [ru Hru]. rewrite Hru. simpl.
  destruct (vset_is_Some a u (ru ++ [(v, 0)]) H1) as [a1 Ha1].
  rewrite Ha1. simpl. pose proof (vset_length _ _ _ _ Ha1) as Hl1.
  destruct (vget_is_Some a1 v) as [rv Hrv]; [lia|]. rewrite Hrv. simpl.
  destruct (vset_is_Some a1 v (rv ++ [(u, 0)])) as [a2 Ha2]; [lia|].
  exists a2. split; [done|]. split.
  { rewrite (vset_length _ _ _ _ Ha2). done. }
  intros x row Hx. rewrite (vget_vset _ _ _ _ x Ha2).
  rewrite (vget_vset _ _ _ _ v Ha1) in Hrv.
  rewrite (right_id_L [] (++)).
  destruct (decide (x = v)) as [->|Hxv].
  - rewrite Z.eqb_refl. destruct (decide (v = u)) as [->|Hvu].
    + rewrite Z.eqb_refl. simplify_eq. simpl. by rewrite <-(assoc_L (++)).
    + destruct (Z.eqb_spec u v); [congruence|]. simplify_eq. done.
  - rewrite (vget_vset _ _ _ _ x Ha1).
    destruct (Z.eqb_spec v x); [congruence|].
    destruct (decide (x = u)) as [->|Hxu].
    + rewrite Z.eqb_refl. simplify_eq. done.
    + destruct (Z.eqb_spec u x); [congruence|]. simpl.
      by rewrite (right_id_L [] (++)).
Qed.

Lemma neighbors_cons e edges x :
  neighbors (e :: edges) x = neighbors [e] x ++ neighbors edges x.
Proof. simpl. rewrite (right_id_L [] (++)). by rewrite <-(assoc_L (++)). Qed.

Lemma read_edges_spec edges : ∀ a,
  Forall (λ e, 0 ≤ e.1 < Z.of_nat (length a) ∧ 0 ≤ e.2 < Z.of_nat (length a)) edges →
  ∃ a', read_edges a edges = Some a' ∧ length a' = length a ∧
    ∀ x row, vget a x = Some row →
      vget a' x = Some (row ++ pairs_of (neighbors edges x)).
Proof.
  induction edges as [|e es IH]; intros a Hall.
  - exists a. simpl. split_and!; [done..|]. intros x row ->.
    by rewrite (right_id_L [] (++)).
  - apply Forall_cons in Hall as [[H1 H2] Hall].
    destruct (push_edge_spec a e H1 H2) as (a1 & Hp & Hl & Hrow).
    destruct (IH a1) as (a' & Hr & Hl' & Hrow').
    { rewrite Hl. done. }
    exists a'. split_and!; [by simpl; rewrite Hp|congruence|].
    intros x row Hx. rewrite (Hrow' x _ (Hrow x row Hx)).
    rewrite (neighbors_cons e es x). unfold pairs_of. rewrite fmap_app.
    by rewrite <-(assoc_L (++)).
Qed.

Lemma neighbors_length edges x :
  Z.of_nat (length (neighbors edges x)) ≤ 2 * Z.of_nat (length edges).
Proof.
  induction edges as [|e es IH]; simpl; [lia|].
  rewrite !length_app. destruct (e.1 =? x), (e.2 =? x); simpl; lia.
Qed.

Lemma neighbors_range edges x lo hi :
  Forall (λ e, (lo ≤ e.1 ≤ hi) ∧ (lo ≤ e.2 ≤ hi)) edges →
  Forall (λ v, lo ≤ v ≤ hi) (neighbors edges x).
Proof.
  induction 1 as [|e es [? ?] ? IH]; simpl; [constructor|].
  destruct (e.1 =? x), (e.2 =? x); simpl; repeat apply Forall_cons_2; done.
Qed.

Lemma find_edge_number_from nb : ∀ k i v,
  nb !! i = Some v →
  find_edge (number_from k (pairs_of nb)) (k + Z.of_nat i) = v.
Proof.
  induction nb as [|b nb IH]; intros k i v Hi; [done|].
  destruct i as [|i]; cbn [number_from pairs_of fmap list_fmap find_edge fst snd].
  - injection Hi as ->. rewrite Z.add_0_r, Z.eqb_refl. done.
  - destruct (Z.eqb_spec k (k + Z.of_nat (S i))); [lia|].
    replace (k + Z.of_nat (S i)) with ((k + 1) + Z.of_nat i) by lia.
    by apply IH.
Qed.

Lemma number_rows_vget a x row :
  1 ≤ x → vget a x = Some row →
  vget (number_rows a) x = Some (number_from 1 row).
Proof.
  intros Hx [_ Hl]%vget_Some. apply vget_Some. split; [lia|].
  destruct a as [|r0 rest]; [done|]. simpl.
  destruct (Z.to_nat x) as [|k] eqn:Hk; [lia|]. simpl in *.
  by rewrite list_lookup_fmap, Hl.
Qed.

Lemma degrees_vget a x row :
  1 ≤ x → vget a x = Some row →
  vget (degrees a) x = Some (to_int (Z.of_nat (length row))).
Proof.
  intros Hx [_ Hl]%vget_Some. apply vget_Some. split; [lia|].
  destruct a as [|r0 rest]; [done|]. simpl.
  destruct (Z.to_nat x) as [|k] eqn:Hk; [lia|]. simpl in *.
  by rewrite list_lookup_fmap, Hl.
Qed.

Lemma build_spec n0 edges :
  wf_input n0 edges →
  ∃ g, build n0 edges = Some g ∧ n g = n0 ∧
    ∀ x, 1 ≤ x ≤ n0 →
      vget (adj g) x = Some (number_from 1 (pairs_of (neighbors edges x))) ∧
      vget (deg g) x = Some (Z.of_nat (length (neighbors edges x))).
Proof.
  intros (Hn & HC & Hm & Hall). unfold build.
  destruct (read_edges_spec edges (replicate (Z.to_nat (n0 + 1)) []))
    as (aio & Hr & Hlen & Hrows).
  { rewrite length_replicate. eapply Forall_impl; [exact Hall|].
    simpl. intros e ?. lia. }
  rewrite Hr. simpl. eexists. split; [done|]. split; [done|]. simpl.
  intros x Hx.
  assert (vget (replicate (Z.to_nat (n0 + 1)) ([] : list (Z * Z))) x = Some []) as H0.
  { apply vget_Some. split; [lia|]. apply lookup_replicate. split; [done|lia]. }
  specialize (Hrows x [] H0). simpl in Hrows. split.
  - apply number_rows_vget; [lia|done].
  - rewrite (degrees_vget _ x _ (proj1 Hx) Hrows). unfold pairs_of.
    rewrite length_fmap, to_int_small; [done|].
    pose proof (neighbors_length edges x). unfold int_max in *. lia.
Qed.

(** The edge the loop finds is the one the selector of the specification
    names. *)
Lemma move_target_select n0 edges g x t :
  wf_input n0 edges → build n0 edges = Some g →
  1 ≤ x ≤ n0 → 0 ≤ t →
  move_target g x t = Some (select edges x t).
Proof.
  intros Hwf Hb Hx Ht. destruct (build_spec n0 edges Hwf) as (g' & Hb' & _ & Hg).
  assert (g' = g) as -> by congruence.
  destruct (Hg x Hx) as [Hadj Hdeg]. unfold move_target, select.
  rewrite Hdeg. simpl. set (nb := neighbors edges x) in *.
  destruct (Z.ltb_spec 0 (Z.of_nat (length nb))) as [Hpos|Hz].
  - rewrite Hadj. simpl. destruct (Z.eqb_spec (Z.of_nat (length nb)) 0); [lia|].
    rewrite Z.rem_mod_nonneg by lia.
    pose proof (Z.mod_pos_bound t (Z.of_nat (length nb)) Hpos) as Hmod.
    pose proof (neighbors_length edges x) as Hlen. fold nb in Hlen.
    destruct Hwf as (_ & _ & Hm & Hall).
    rewrite to_int_small by (unfold int_max in *; lia).
    destruct (lookup_lt_is_Some_2 nb (Z.to_nat (t `mod` Z.of_nat (length nb))))
      as [v Hv]; [lia|].
    rewrite Hv. f_equal.
    replace (t `mod` Z.of_nat (length nb) + 1)
      with (1 + Z.of_nat (Z.to_nat (t `mod` Z.of_nat (length nb)))) by lia.
    rewrite (find_edge_number_from nb 1 _ v Hv).
    pose proof (neighbors_range edges x 1 n0 Hall) as Hrange. fold nb in Hrange.
    rewrite Forall_forall in Hrange.
    assert (1 ≤ v ≤ n0) by (apply Hrange; eapply list_elem_of_lookup_2; done).
    destruct (Z.eqb_spec v (-1)); [lia|done].
  - destruct (Z.eqb_spec (Z.of_nat (length nb)) 0); [done|lia].
Qed.

Lemma select_range n0 edges x t y :
  wf_input n0 edges → select edges x t = Some y → 1 ≤ y ≤ n0.
Proof.
  intros (_ & _ & _ & Hall). unfold select.
  destruct (_ =? 0); [done|]. intros Hy%list_elem_of_lookup_2.
  pose proof (neighbors_range edges x 1 n0 Hall) as Hrange.
  rewrite Forall_forall in Hrange. by apply Hrange.
Qed.
End Graph.

(** ** Sums and counts over the tables *)

Section Sums.
Implicit Types (l : list Z) (m : list (list Z)).

Lemma sumZ_insert l : ∀ (i : nat) x y,
  l !! i = Some y → sumZ (<[i:=x]> l) = sumZ l - y + x.
Proof.
  induction l as [|z l IH]; intros [|i] x y Hi; simplify_eq/=; [lia|].
  rewrite (IH i x y Hi). lia.
Qed.

Lemma sumZ_vset l i x y l' :
  vget l i = Some y → vset l i x = Some l' → sumZ l' = sumZ l - y + x.
Proof.
  intros [_ Hy]%vget_Some [_ ->]%vset_Some. by apply sumZ_insert.
Qed.

Lemma sumZ_vset2 m i j x y m' :
  vget2 m i j = Some y → vset2 m i j x = Some m' →
  sumZ (sumZ <$> m') = sumZ (sumZ <$> m) - y + x.
Proof.
  intros (row & Hrow & Hy)%vget2_Some (row0 & row' & Hrow0 & Hs & Hm)%vset2_Some.
  assert (row0 = row) as -> by congruence.
  apply vset_Some in Hm as [Hi ->]. apply vget_Some in Hrow as [_ Hrow].
  rewrite list_fmap_insert.
  rewrite (sumZ_insert _ _ _ (sumZ row)); [|by rewrite list_lookup_fmap, Hrow].
  rewrite (sumZ_vset _ _ _ _ _ Hy Hs). lia.
Qed.

Lemma sumZ_nonneg l : Forall (λ y, 0 ≤ y) l → 0 ≤ sumZ l.
Proof. induction 1; simpl; lia. Qed.

Lemma finite_count_bounds l : 0 ≤ finite_count l ≤ Z.of_nat (length l).
Proof. induction l as [|y l IH]; simpl; [lia|]. destruct (y =? INF); lia. Qed.

Lemma finite_count_insert l : ∀ (i : nat) x y,
  l !! i = Some y →
  finite_count (<[i:=x]> l) =
  finite_count l - (if y =? INF then 0 else 1) + (if x =? INF then 0 else 1).
Proof.
  induction l as [|z l IH]; intros [|i] x y Hi; simplify_eq/=; [lia|].
  rewrite (IH i x y Hi). lia.
Qed.

Lemma finite_count_discover l i x l' :
  vget l i = Some INF → x ≠ INF → vset l i x = Some l' →
  finite_count l' = finite_count l + 1.
Proof.
  intros [_ Hy]%vget_Some Hx [_ ->]%vset_Some.
  rewrite (finite_count_insert _ _ _ _ Hy). rewrite Z.eqb_refl.
  destruct (Z.eqb_spec x INF); [done|lia].
Qed.

Lemma finite_count_pos l i y : vget l i = Some y → y ≠ INF → 1 ≤ finite_count l.
Proof.
  intros [_ Hy]%vget_Some Hne. revert Hy. generalize (Z.to_nat i) as k.
  induction l as [|z l IH]; intros [|k] Hk; simplify_eq/=.
  - pose proof (finite_count_bounds l). destruct (Z.eqb_spec y INF); [done|lia].
  - specialize (IH k Hk). destruct (z =? INF); lia.
Qed.
End Sums.

(** ** Invariants of the search *)

Lemma State_gt_false_time s x : State_gt s x = false → total_time s ≤ total_time x.
Proof. unfold State_gt. zb; intros; lia. Qed.

Lemma pq_pop_facts q s q' :
  pq_pop q s q' →
  s ∈ q ∧ (∀ x, x ∈ q' → x ∈ q) ∧ (∀ x, x ∈ q → x = s ∨ x ∈ q') ∧
  (∀ x, x ∈ q → total_time s ≤ total_time x) ∧ length q = S (length q').
Proof.
  intros [(q1 & q2 & -> & ->) Hmin]. rewrite Forall_forall in Hmin.
  split_and!.
  - set_solver.
  - set_solver.
  - intros x. rewrite !elem_of_app, elem_of_cons. naive_solver.
  - intros x Hx. apply State_gt_false_time. by apply Hmin.
  - rewrite !length_app. simpl. lia.
Qed.

Lemma walk_bounds edges x t w : walk edges x t w → 0 ≤ w ≤ t.
Proof. induction 1; lia. Qed.

Lemma walk_range n0 edges x t w :
  wf_input n0 edges → walk edges x t w → 1 ≤ x ≤ n0.
Proof.
  intros Hwf. induction 1 as [| |x t w y _ _ Hsel]; [destruct Hwf; lia|done|].
  by eapply select_range.
Qed.

Section Invariant.
Variables (n0 : Z) (edges : list (Z * Z)).
Hypothesis Hwf : wf_input n0 edges.

Lemma inv_count_le c tc : inv n0 edges c tc → finite_count (min_t c) * C ≤ int_max.
Proof.
  intros [[Hl _] _ _ _ _ _ _]. destruct Hwf as (_ & HC & _).
  pose proof (finite_count_bounds (min_t c)). unfold C in *. nia.
Qed.

Lemma inv_pop c tc s q' :
  inv n0 edges c tc → pq_pop (pq c) s q' →
  inv n0 edges (set_pq q' c) (total_time s).
Proof.
  intros [Hsh Htc Hpq Hmt Hmw Hans Hsrc] (Hs & Hsub & _ & Hmin & _)%pq_pop_facts.
  destruct (Hpq s Hs) as (_ & ? & ? & _ & m & x & Hm & Hne & ? & _).
  destruct (Hmt _ _ Hm Hne) as (_ & ? & ? & _).
  split; simpl; try done.
  - unfold C in *. lia.
  - intros s' Hs'. destruct (Hpq s' (Hsub _ Hs')) as (? & ? & ? & ? & ?).
    split_and!; try done; try lia. by apply Hmin, Hsub.
  - intros v m' Hv Hne'. destruct (Hmt v m' Hv Hne') as (? & ? & ? & ?).
    split_and!; try done; try lia.
Qed.

Lemma inv_set_ans c tc a :
  inv n0 edges c tc → (a = (INF, INF) ∨ walk edges n0 a.1 a.2) →
  inv n0 edges (set_ans a c) tc.
Proof. intros [] ?. split; done. Qed.

Lemma inv_improve c tc v t w c' :
  inv n0 edges c tc → improve v t w c c' →
  t = tc + 1 → walk edges v t w → inv n0 edges c' tc.
Proof.
  intros Hinv (m & cur & mw & Hm & Hne & Hwin & Hcur & Hlt & Hset & ->) -> Hwalk.
  pose proof (inv_count_le _ _ Hinv) as Hcnt.
  destruct Hinv as [Hsh Htc Hpq Hmt Hmw Hans Hsrc].
  pose proof (walk_bounds _ _ _ _ Hwalk) as Hwb.
  destruct (Hmt _ _ Hm Hne) as (Hv & Hm0 & Hmk & _).
  split; simpl; try done.
  - destruct Hsh as (? & ? & Hrows). split_and!; simpl; try done.
    + by rewrite (vset2_length _ _ _ _ _ Hset).
    + intros i row Hi. destruct (vset2_rows _ _ _ _ _ _ _ Hset Hi) as (r & Hr & ->).
      by eapply Hrows.
  - intros s [->|Hs]%elem_of_cons; simpl.
    + split_and!; try done; try lia. exists m, w. split_and!; try done; try lia.
      rewrite (vget2_vset2 _ _ _ _ _ v (tc + 1 - m) Hset). by rewrite decide_True.
    + destruct (Hpq s Hs) as (? & ? & ? & ? & m' & x & Hm' & ? & ? & Hx & ?).
      split_and!; try done; try lia. exists m'.
      rewrite (vget2_vset2 _ _ _ _ _ (node s) (total_time s - m') Hset).
      case_decide as Hd; [|by eauto 10].
      destruct Hd as [Hd1 Hd2]. rewrite Hd1 in *.
      assert (m' = m) as -> by congruence. rewrite Hd2 in Hx.
      exists w. split_and!; try done; try lia. assert (x = cur) by congruence. lia.
  - intros v' d x. rewrite (vget2_vset2 _ _ _ _ _ v' d Hset).
    case_decide as Hd; [|by apply Hmw].
    destruct Hd as [-> ->]. intros [= <-] _. split; [|by eauto].
    unfold INF, int_max, C in *. lia.
  - destruct Hsrc as (? & x & Hx & ?). split; [done|].
    rewrite (vget2_vset2 _ _ _ _ _ 1 0 Hset). case_decide as Hd; [|by eauto].
    destruct Hd as [<- Hd]. rewrite <-Hd in Hcur.
    exists w. split; [done|]. assert (x = cur) by congruence. lia.
Qed.

Lemma inv_discover c tc v t w c' :
  inv n0 edges c tc → discover v t w c c' →
  t = tc + 1 → walk edges v t w → inv n0 edges c' tc.
Proof.
  intros Hinv (m & mt & mw & Hm & Hlt & Hsett & Hset & ->) -> Hwalk.
  pose proof (inv_count_le _ _ Hinv) as Hcnt.
  destruct Hinv as [Hsh Htc Hpq Hmt Hmw Hans Hsrc].
  pose proof (walk_bounds _ _ _ _ Hwalk) as Hwb.
  pose proof (walk_range _ _ _ _ _ Hwf Hwalk) as Hv.
  assert (m = INF) as ->.
  { destruct (decide (m = INF)) as [|Hne]; [done|].
    destruct (Hmt _ _ Hm Hne) as (_ & ? & _). lia. }
  assert (tc + 1 ≠ INF) as HtINF by lia.
  pose proof (finite_count_discover _ _ _ _ Hm HtINF Hsett) as Hk.
  assert (∀ v', v' ≠ v → vget mt v' = vget (min_t c) v') as Hmt_ne.
  { intros v' ?. by eapply vget_vset_ne. }
  assert (vget mt v = Some (tc + 1)) as Hmt_eq by by eapply vget_vset_eq.
  assert (∀ v' d, v' ≠ v → vget2 mw v' d = vget2 (min_w c) v' d) as Hmw_ne.
  { intros v' d ?. rewrite (vget2_vset2 _ _ _ _ _ v' d Hset).
    rewrite decide_False; [done|]. by intros [? _]. }
  split; simpl; try done.
  - destruct Hsh as (? & ? & Hrows). split_and!; simpl.
    + by rewrite (vset_length _ _ _ _ Hsett).
    + by rewrite (vset2_length _ _ _ _ _ Hset).
    + intros i row Hi. destruct (vset2_rows _ _ _ _ _ _ _ Hset Hi) as (r & Hr & ->).
      by eapply Hrows.
  - rewrite Hk. unfold C in *. lia.
  - intros s [->|Hs]%elem_of_cons; simpl.
    + split_and!; try done; try lia. exists (tc + 1), w.
      split_and!; try done; unfold C; try lia.
      rewrite (vget2_vset2 _ _ _ _ _ v (tc + 1 - (tc + 1)) Hset).
      rewrite decide_True; [done|]. split; [done|lia].
    + destruct (Hpq s Hs) as (? & ? & ? & ? & m' & x & Hm' & ? & ? & Hx & ?).
      assert (node s ≠ v) by congruence.
      split_and!; try done; try lia. exists m', x. rewrite Hmt_ne, Hmw_ne by done.
      split_and!; try done; lia.
  - intros v' m' Hv' Hne'. destruct (decide (v' = v)) as [->|Hvv].
    + assert (m' = tc + 1) as -> by congruence.
      split_and!; try done; try lia. by eauto.
    + rewrite Hmt_ne in Hv' by done.
      destruct (Hmt v' m' Hv' Hne') as (? & ? & ? & ?).
      split_and!; try done; unfold C in *; lia.
  - intros v' d x. rewrite (vget2_vset2 _ _ _ _ _ v' d Hset).
    case_decide as Hd.
    + destruct Hd as [-> ->]. intros [= <-] _. split; [|by eauto].
      unfold INF, int_max, C in *. lia.
    + intros Hx Hne. destruct (Hmw v' d x Hx Hne) as (? & m' & Hm' & ?).
      split; [done|]. assert (v' ≠ v) by congruence.
      exists m'. by rewrite Hmt_ne.
  - destruct Hsrc as (H1 & x & Hx & ?).
    assert (1 ≠ v).
    { intros <-. rewrite H1 in Hm. injection Hm. unfold INF. lia. }
    rewrite Hmt_ne, Hmw_ne by done. eauto.
Qed.
End Invariant.

(** ** Growth of the tables *)

Lemma extends_refl c : extends c c.
Proof.
  split; try done.
  - intros v d x Hx. exists x. split; [done|lia].
  - intros. by left.
Qed.

Lemma extends_trans c1 c2 c3 : extends c1 c2 → extends c2 c3 → extends c1 c3.
Proof.
  intros [Hmt1 Hmw1 Hn1 Hq1 Ha1 Hp1] [Hmt2 Hmw2 Hn2 Hq2 Ha2 Hp2]. split.
  - eauto.
  - intros v d x Hx. destruct (Hmw1 v d x Hx) as (x1 & Hx1 & ?).
    destruct (Hmw2 v d x1 Hx1) as (x2 & Hx2 & ?). exists x2. split; [done|lia].
  - intros v m d x Hm Hne Hx Hxne.
    destruct (Hn2 v m d x Hm Hne Hx Hxne) as [[Hm2 Hx2]|?]; [|by right].
    destruct (Hn1 v m d x Hm2 Hne Hx2 Hxne) as [?|?]; [by left|right; eauto].
  - eauto.
  - congruence.
  - lia.
Qed.

Lemma covered_extends c c' v t w : covered c v t w → extends c c' → covered c' v t w.
Proof.
  intros (m & Hm & Hne & Hle & Hin) Hext. exists m.
  split_and!; [by eapply ext_mt|done..|].
  intros Hlt. destruct (Hin Hlt) as (x & Hx & ?).
  destruct (ext_mw _ _ Hext _ _ _ Hx) as (x' & Hx' & ?). exists x'. split; [done|lia].
Qed.

Section Offers.
Variables (n0 : Z) (edges : list (Z * Z)).
Hypothesis Hwf : wf_input n0 edges.

Lemma shape_vget2 c v d :
  tables_shape n0 c → 0 ≤ v ≤ n0 → 0 ≤ d < C → is_Some (vget2 (min_w c) v d).
Proof.
  intros (_ & Hl & Hrows) Hv Hd.
  destruct (vget_is_Some (min_w c) v) as [row Hrow]; [lia|].
  destruct (vget_is_Some row d) as [x Hx]; [rewrite (Hrows _ _ Hrow); lia|].
  exists x. apply vget2_Some. eauto.
Qed.

Lemma improve_extends c tc v t w c' :
  inv n0 edges c tc → improve v t w c c' → extends c c'.
Proof.
  intros Hinv (m & cur & mw & Hm & Hne & Hwin & Hcur & Hlt & Hset & ->).
  split; simpl; try done.
  - intros v' d x Hx. rewrite (vget2_vset2 _ _ _ _ _ v' d Hset).
    case_decide as Hd; [|exists x; split; [done|lia]].
    destruct Hd as [-> ->]. exists w. split; [done|].
    assert (x = cur) by congruence. lia.
  - intros v' m' d x Hm' Hne' Hx Hxne.
    rewrite (vget2_vset2 _ _ _ _ _ v' d Hset) in Hx.
    case_decide as Hd; [|by left].
    destruct Hd as [-> ->]. right. assert (m' = m) as -> by congruence.
    injection Hx as <-. replace (m + (t - m)) with t by lia. set_solver.
  - set_solver.
  - unfold potential. simpl. rewrite (sumZ_vset2 _ _ _ _ _ _ Hcur Hset). lia.
Qed.

Lemma discover_extends c tc v w c' :
  inv n0 edges c tc → discover v (tc + 1) w c c' → w < INF → extends c c'.
Proof.
  intros Hinv (m & mt & mw & Hm & Hlt & Hsett & Hset & ->) Hw.
  pose proof (inv_count_le _ _ Hwf _ _ Hinv) as Hcnt.
  destruct Hinv as [Hsh Htc Hpq Hmt Hmw Hans Hsrc].
  assert (m = INF) as ->.
  { destruct (decide (m = INF)) as [|Hne]; [done|].
    destruct (Hmt _ _ Hm Hne) as (_ & ? & _). lia. }
  assert (∀ d x, vget2 (min_w c) v d = Some x → x = INF) as Hrow.
  { intros d x Hx. destruct (decide (x = INF)) as [|Hne]; [done|].
    destruct (Hmw v d x Hx Hne) as (_ & m' & Hm' & ?). congruence. }
  assert (is_Some (vget2 (min_w c) v 0)) as [x0 Hx0].
  { apply vset2_Some in Hset as (row & row' & Hr & Hs & _).
    apply vset_Some in Hs as [? _].
    destruct (vget_is_Some row 0) as [x ?]; [done|]. exists x.
    apply vget2_Some. eauto. }
  pose proof (Hrow _ _ Hx0) as ->.
  split; simpl; try done.
  - intros v' m' Hm' Hne'. rewrite (vget_vset _ _ _ _ v' Hsett).
    rewrite decide_False; [done|]. congruence.
  - intros v' d x Hx. rewrite (vget2_vset2 _ _ _ _ _ v' d Hset).
    case_decide as Hd; [|exists x; split; [done|lia]].
    destruct Hd as [-> ->]. exists w. split; [done|].
    assert (x = INF) by congruence. lia.
  - intros v' m' d x. rewrite (vget_vset _ _ _ _ v' Hsett).
    rewrite (vget2_vset2 _ _ _ _ _ v' d Hset).
    destruct (decide (v' = v)) as [->|Hvv].
    + intros [= <-] _. destruct (decide (d = 0)) as [->|Hd0].
      * rewrite decide_True by done. intros [= <-] _. right.
        rewrite Z.add_0_r. set_solver.
      * rewrite decide_False by (by intros [_ ?]).
        intros Hx%Hrow. done.
    + rewrite decide_False by (by intros [? _]). by left.
  - set_solver.
  - unfold potential. simpl. rewrite (sumZ_vset2 _ _ _ _ _ _ Hx0 Hset).
    rewrite (sumZ_vset _ _ _ _ _ Hm Hsett). lia.
Qed.

Lemma offer_inv c tc v w c' :
  inv n0 edges c tc → offer v (tc + 1) w c c' → walk edges v (tc + 1) w →
  inv n0 edges c' tc ∧ extends c c'.
Proof.
  intros Hinv [->|[Himp|Hdis]] Hwalk.
  - split; [done|apply extends_refl].
  - split; [by eapply inv_improve|by eapply improve_extends].
  - split; [by eapply inv_discover|].
    eapply discover_extends; [done..|].
    pose proof (walk_bounds _ _ _ _ Hwalk).
    pose proof (inv_count_le _ _ Hwf _ _ Hinv).
    destruct Hinv as [_ Htc _ _ _ _ _]. unfold INF, int_max in *. lia.
Qed.

(** Option 1 of the loop body, for a popped state that passed the checks. *)
Lemma relax_wait_spec c tc s m :
  inv n0 edges c tc →
  vget (min_t c) (node s) = Some m → m ≠ INF → m ≤ total_time s < m + C →
  ∃ c', relax_wait s (total_time s - m) c = Some c' ∧
    offer (node s) (total_time s + 1) (wait_time s + 1) c c' ∧
    covered c' (node s) (total_time s + 1) (wait_time s + 1).
Proof.
  intros Hinv Hm Hne Hwin. unfold relax_wait. rewrite Hm. simpl.
  destruct (inv_mt _ _ _ _ Hinv _ _ Hm Hne) as (Hv & _).
  destruct (Z.ltb_spec (total_time s + 1) (m + C)) as [Hlt|Hge].
  - destruct (shape_vget2 c (node s) (total_time s - m + 1)) as [cur Hcur];
      [by destruct Hinv|lia|lia|].
    rewrite Hcur. simpl.
    destruct (Z.ltb_spec (wait_time s + 1) cur) as [Hw|Hw].
    + destruct (vset2_is_Some (min_w c) (node s) (total_time s - m + 1)
                  (wait_time s + 1)) as [mw Hmw]; [by eauto|].
      rewrite Hmw. simpl. eexists. split; [done|].
      replace (total_time s - m + 1) with (total_time s + 1 - m) in * by lia.
      split.
      * right; left. exists m, cur, mw. split_and!; try done; lia.
      * exists m. simpl. split_and!; try done; try lia. intros _.
        exists (wait_time s + 1). split; [|lia].
        rewrite (vget2_vset2 _ _ _ _ _ (node s) (total_time s + 1 - m) Hmw).
        by rewrite decide_True.
    + eexists. split; [done|]. split; [by left|].
      exists m. split_and!; try done; try lia. intros _. exists cur.
      replace (total_time s + 1 - m) with (total_time s - m + 1) by lia. done.
  - eexists. split; [done|]. split; [by left|].
    exists m. split_and!; try done; lia.
Qed.

(** Lines 103-119 for a successor one tick after the popped state. *)
Lemma accept_move_spec c tc w v :
  inv n0 edges c tc → 1 ≤ v ≤ n0 →
  ∃ c', accept_move (tc + 1) w v c = Some c' ∧
    offer v (tc + 1) w c c' ∧ covered c' v (tc + 1) w.
Proof.
  intros Hinv Hv. unfold accept_move.
  pose proof (inv_count_le _ _ Hwf _ _ Hinv) as Hcnt.
  pose proof (inv_tc _ _ _ _ Hinv) as Htc.
  pose proof (inv_shape _ _ _ _ Hinv) as Hsh.
  destruct (vget_is_Some (min_t c) v) as [m Hm]; [destruct Hsh; lia|].
  rewrite Hm. simpl.
  destruct (Z.ltb_spec (tc + 1) m) as [Hlt|Hge].
  - destruct (vset_is_Some (min_t c) v (tc + 1)) as [mt Hmt]; [destruct Hsh; lia|].
    rewrite Hmt. simpl.
    destruct (vset2_is_Some (min_w c) v 0 w) as [mw Hmw].
    { apply (shape_vget2 c v 0 Hsh); unfold C; lia. }
    rewrite Hmw. simpl. eexists. split; [done|]. split.
    + right; right. exists m, mt, mw. done.
    + exists (tc + 1). simpl. split_and!; try lia.
      * by eapply vget_vset_eq.
      * unfold INF, int_max in *. lia.
      * intros _. exists w. split; [|lia].
        rewrite (vget2_vset2 _ _ _ _ _ v (tc + 1 - (tc + 1)) Hmw).
        rewrite decide_True; [done|]. split; [done|lia].
  - assert (m ≠ INF) as Hne by (unfold INF, int_max in *; lia).
    destruct (inv_mt _ _ _ _ Hinv _ _ Hm Hne) as (_ & Hm0 & _).
    rewrite to_int_small by (unfold int_max in *; lia).
    destruct (Z.ltb_spec (tc + 1 - m) C) as [Hin|Hout].
    + destruct (shape_vget2 c v (tc + 1 - m) Hsh) as [cur Hcur]; [lia..|].
      rewrite Hcur. simpl.
      destruct (Z.ltb_spec w cur) as [Hw|Hw].
      * destruct (vset2_is_Some (min_w c) v (tc + 1 - m) w) as [mw Hmw]; [by eauto|].
        rewrite Hmw. simpl. eexists. split; [done|]. split.
        -- right; left. exists m, cur, mw. split_and!; try done; lia.
        -- exists m. simpl. split_and!; try done; try lia. intros _.
           exists w. split; [|lia].
           rewrite (vget2_vset2 _ _ _ _ _ v (tc + 1 - m) Hmw).
           by rewrite decide_True.
      * eexists. split; [done|]. split; [by left|].
        exists m. split_and!; try done; try lia. intros _. by exists cur.
    + eexists. split; [done|]. split; [by left|].
      exists m. split_and!; try done; lia.
Qed.
End Offers.

(** ** One iteration of the loop *)

Lemma record_ans_cases g s a :
  (record_ans g s a = a ∧ (node s = n g → lex_le a (total_time s, wait_time s))) ∨
  (record_ans g s a = (total_time s, wait_time s) ∧ node s = n g ∧
   lex_lt (total_time s, wait_time s) a).
Proof.
  unfold record_ans, lex_le, lex_lt. destruct a as [a1 a2]. simpl.
  zb; try (left; split; [done|intros; lia]); try (right; split_and!; [done|done|lia]).
Qed.

Section Step.
Variables (n0 : Z) (edges : list (Z * Z)) (g : graph).
Hypothesis Hwf : wf_input n0 edges.
Hypothesis Hg : build n0 edges = Some g.

Lemma graph_n : n g = n0.
Proof. destruct (build_spec n0 edges Hwf) as (g' & ? & ? & _). congruence. Qed.

Lemma record_ans_sound c tc s :
  inv n0 edges c tc → s ∈ pq c →
  let a := record_ans g s (ans c) in
  a = (INF, INF) ∨ walk edges n0 a.1 a.2.
Proof.
  intros Hinv Hs. simpl. destruct (record_ans_cases g s (ans c)) as [[-> _]|(-> & Hn & _)].
  - by destruct Hinv.
  - right. simpl. rewrite <-graph_n, <-Hn.
    by destruct (inv_pq _ _ _ _ Hinv s Hs) as (_ & _ & _ & ? & _).
Qed.

Lemma loop_body_spec c tc s q' :
  inv n0 edges c tc → pq_pop (pq c) s q' →
  ∃ m x c',
    vget (min_t c) (node s) = Some m ∧ m ≠ INF ∧
    vget2 (min_w c) (node s) (total_time s - m) = Some x ∧
    loop_body g s (set_pq q' c) = Some c' ∧
    outcome g edges c s q' x c' ∧
    inv n0 edges c' (total_time s) ∧
    potential c' < potential c.
Proof.
  intros Hinv Hpop.
  pose proof (inv_pop _ _ _ _ _ _ Hinv Hpop) as Hinvp.
  pose proof (pq_pop_facts _ _ _ Hpop) as (Hs & _ & _ & _ & Hlen).
  destruct (inv_pq _ _ _ _ Hinv s Hs)
    as (Hu & Hw & _ & Hwalk & m & x & Hm & Hne & Hwin & Hx & Hxw).
  exists m, x.
  assert (potential (set_pq q' c) = potential c - 1) as Hpot.
  { unfold potential. simpl. lia. }
  unfold loop_body. simpl. rewrite Hm. simpl.
  destruct (Z.eqb_spec m INF) as [|_]; [done|]. simpl.
  destruct (Z.gtb_spec (total_time s) (m + C)) as [|_]; [lia|].
  rewrite to_int_small by (unfold int_max, C in *; lia).
  destruct (Z.geb_spec (total_time s - m) C) as [|_]; [lia|].
  rewrite Hx. simpl.
  destruct (Z.gtb_spec (wait_time s) x) as [Hstale|Hfresh].
  { eexists. split_and!; try done; [by left|lia]. }
  assert (x = wait_time s) as -> by lia.
  set (c1 := set_ans (record_ans g s (ans c)) (set_pq q' c)).
  assert (inv n0 edges c1 (total_time s)) as Hinv1.
  { apply inv_set_ans; [done|]. by eapply record_ans_sound. }
  fold c1.
  destruct (Z.gtb_spec (total_time s) (record_ans g s (ans c)).1) as [Hlate|Hearly].
  { eexists. split_and!; try done; [|unfold potential in *; simpl in *; lia].
    right. split; [done|]. left. done. }
  destruct (relax_wait_spec _ _ c1 (total_time s) s m Hinv1)
    as (c2 & Hrw & Hoff2 & Hcov2); [done..|].
  rewrite Hrw. simpl.
  destruct (offer_inv _ _ Hwf _ _ _ _ _ Hinv1 Hoff2) as [Hinv2 Hext2].
  { by apply walk_wait. }
  unfold relax_move.
  rewrite (move_target_select n0 edges g _ _ Hwf Hg) by lia. simpl.
  destruct (select edges (node s) (total_time s)) as [y|] eqn:Hsel.
  - destruct (accept_move_spec _ _ Hwf c2 (total_time s) (wait_time s) y Hinv2)
      as (c3 & Ham & Hoff3 & Hcov3); [by eapply select_range|].
    rewrite Ham. destruct (offer_inv _ _ Hwf _ _ _ _ _ Hinv2 Hoff3) as [Hinv3 Hext3].
    { by eapply walk_move. }
    exists c3. split_and!; try done.
    + right. split; [done|]. right. split; [done|]. exists c2.
      split_and!; try done. intros y' Hy'. rewrite Hsel in Hy'. by injection Hy' as <-.
    + pose proof (ext_pot _ _ Hext2). pose proof (ext_pot _ _ Hext3).
      unfold potential in *. simpl in *. lia.
  - exists c2. split_and!; try done.
    + right. split; [done|]. right. split; [done|]. exists c2.
      split_and!; try done; [apply extends_refl|].
      intros y' Hy'. by rewrite Hsel in Hy'.
    + pose proof (ext_pot _ _ Hext2). unfold potential in *. simpl in *. lia.
Qed.
End Step.

(** ** Completeness of the tables *)

Lemma lex_le_trans a b c : lex_le a b → lex_le b c → lex_le a c.
Proof. unfold lex_le. lia. Qed.

Lemma lex_lt_le a b : lex_lt a b → lex_le a b.
Proof. unfold lex_lt, lex_le. lia. Qed.

Lemma lex_le_refl a : lex_le a a.
Proof. unfold lex_le. lia. Qed.

Lemma record_ans_le g s a : lex_le (record_ans g s a) a.
Proof.
  destruct (record_ans_cases g s a) as [[-> _]|(-> & _ & ?)];
    [apply lex_le_refl|by apply lex_lt_le].
Qed.

Lemma expanded_extends edges c c' v t x :
  expanded edges c v t x → extends c c' → expanded edges c' v t x.
Proof. intros [H1 H2] Hext. split; eauto using covered_extends. Qed.

Lemma record_ans_self g s a :
  node s = n g → lex_le (record_ans g s a) (total_time s, wait_time s).
Proof.
  intros Hn. destruct (record_ans_cases g s a) as [[-> H]|(-> & _ & _)];
    [by apply H|apply lex_le_refl].
Qed.

Section Complete.
Variables (n0 : Z) (edges : list (Z * Z)) (g : graph).
Hypothesis Hgn : n g = n0.

Lemma outcome_complete c tc s q' m x c' :
  inv n0 edges c tc → complete n0 edges c → pq_pop (pq c) s q' →
  vget (min_t c) (node s) = Some m →
  vget2 (min_w c) (node s) (total_time s - m) = Some x →
  outcome g edges c s q' x c' →
  complete n0 edges c'.
Proof.
  intros Hinv [Hexp Hans] (Hs & _ & Hrest & _)%pq_pop_facts Hm Hx Hout.
  (* a pending entry that is the popped state itself *)
  assert (∀ v m' d x', vget (min_t c) v = Some m' → vget2 (min_w c) v d = Some x' →
            mkState (m' + d) x' v = s → x' = x ∧ wait_time s = x ∧
            total_time s = m' + d ∧ node s = v) as Hself.
  { intros v m' d x' Hm' Hx' <-. simpl in *.
    assert (m' = m) as -> by congruence.
    replace (m + d - m) with d in Hx by lia. split_and!; congruence. }
  pose proof (record_ans_le g s (ans c)) as Hrale.
  pose proof (record_ans_self g s (ans c)) as Hraself.
  destruct Hout as [[Hstale ->]|[-> [[Hlate ->]|(Hearly & c2 & He2 & He3 & Hc2 & Hc3)]]].
  - (* the popped state is stale *)
    split; simpl.
    + intros v m' d x' Hm' Hne' Hx' Hxne' Hle.
      destruct (Hexp v m' d x' Hm' Hne' Hx' Hxne' Hle) as [Hin|?]; [|by right].
      destruct (Hrest _ Hin) as [Heq|?]; [|by left].
      destruct (Hself _ _ _ _ Hm' Hx' Heq) as (? & ? & ? & ?). lia.
    + intros m' d x' Hm' Hne' Hx' Hxne'.
      destruct (Hans m' d x' Hm' Hne' Hx' Hxne') as [Hin|?]; [|by right].
      destruct (Hrest _ Hin) as [Heq|?]; [|by left].
      destruct (Hself _ _ _ _ Hm' Hx' Heq) as (? & ? & ? & ?). lia.
  - (* later than the recorded answer: not expanded *)
    split; simpl in *.
    + intros v m' d x' Hm' Hne' Hx' Hxne' Hle.
      assert (m' + d ≤ (ans c).1) as Hle' by (unfold lex_le in Hrale; lia).
      destruct (Hexp v m' d x' Hm' Hne' Hx' Hxne' Hle') as [Hin|Hdone];
        [|right; exact Hdone].
      destruct (Hrest _ Hin) as [Heq|?]; [|by left].
      destruct (Hself _ _ _ _ Hm' Hx' Heq) as (? & ? & ? & ?). lia.
    + intros m' d x' Hm' Hne' Hx' Hxne'.
      destruct (Hans m' d x' Hm' Hne' Hx' Hxne') as [Hin|?];
        [|right; by eapply lex_le_trans].
      destruct (Hrest _ Hin) as [Heq|?]; [|by left].
      destruct (Hself _ _ _ _ Hm' Hx' Heq) as (-> & ? & Ht & Hn).
      right. rewrite <-Ht. apply Hraself. congruence.
  - (* expanded *)
    assert (extends (set_ans (record_ans g s (ans c)) (set_pq q' c)) c')
      as Hext by (by eapply extends_trans).
    split; simpl in *.
    + intros v m' d x' Hm' Hne' Hx' Hxne' Hle.
      rewrite (ext_ans _ _ Hext) in Hle. simpl in Hle.
      destruct (ext_new _ _ Hext v m' d x' Hm' Hne' Hx' Hxne') as [[Hm0 Hx0]|?];
        [|by left]. simpl in *.
      assert (m' + d ≤ (ans c).1) as Hle' by (unfold lex_le in Hrale; lia).
      destruct (Hexp v m' d x' Hm0 Hne' Hx0 Hxne' Hle') as [Hin|Hdone].
      2: { right.
           eapply (expanded_extends edges (set_ans (record_ans g s (ans c)) (set_pq q' c)));
             [exact Hdone|exact Hext]. }
      destruct (Hrest _ Hin) as [Heq|?]; [|left; by apply (ext_pq _ _ Hext)].
      destruct (Hself _ _ _ _ Hm0 Hx0 Heq) as (-> & Hw & Ht & Hn).
      right. rewrite <-Ht, <-Hn. split; [by eapply covered_extends|done].
    + intros m' d x' Hm' Hne' Hx' Hxne'.
      rewrite (ext_ans _ _ Hext). simpl.
      destruct (ext_new _ _ Hext n0 m' d x' Hm' Hne' Hx' Hxne') as [[Hm0 Hx0]|?];
        [|by left]. simpl in *.
      destruct (Hans m' d x' Hm0 Hne' Hx0 Hxne') as [Hin|?];
        [|right; by eapply lex_le_trans].
      destruct (Hrest _ Hin) as [Heq|?]; [|left; by apply (ext_pq _ _ Hext)].
      destruct (Hself _ _ _ _ Hm0 Hx0 Heq) as (-> & ? & Ht & Hn).
      right. rewrite <-Ht. apply Hraself. congruence.
Qed.
End Complete.

(** ** The initial configuration *)

Lemma vget_replicate {A} k (y z : A) i :
  vget (replicate k y) i = Some z → z = y.
Proof. intros [_ [? _]%lookup_replicate]%vget_Some. done. Qed.

Lemma vget_replicate_is_Some {A} k (y : A) i :
  0 ≤ i < Z.of_nat k → vget (replicate k y) i = Some y.
Proof. intros ?. apply vget_Some. split; [lia|]. apply lookup_replicate. split; [done|lia]. Qed.

Lemma init_spec n0 edges :
  wf_input n0 edges →
  ∃ c0, init n0 = Some c0 ∧ inv n0 edges c0 0 ∧ complete n0 edges c0.
Proof.
  intros (Hn & HC & _). unfold init.
  set (mt0 := replicate (Z.to_nat (n0 + 1)) INF).
  set (mw0 := replicate (Z.to_nat (n0 + 1)) (replicate (Z.to_nat C) INF)).
  destruct (vset_is_Some mt0 1 0) as [mt Hmt].
  { unfold mt0. rewrite length_replicate. lia. }
  assert (vget2 mw0 1 0 = Some INF) as H10.
  { apply vget2_Some. exists (replicate (Z.to_nat C) INF).
    split; apply vget_replicate_is_Some; unfold C; lia. }
  destruct (vset2_is_Some mw0 1 0 0) as [mw Hmw]; [by eauto|].
  rewrite Hmt, Hmw. simpl. eexists. split; [done|].
  assert (∀ v m, vget mt v = Some m → m ≠ INF → v = 1 ∧ m = 0) as Hmt_fin.
  { intros v m. rewrite (vget_vset _ _ _ _ v Hmt). case_decide; [naive_solver|].
    by intros ->%vget_replicate. }
  assert (∀ v d x, vget2 mw v d = Some x → x ≠ INF → v = 1 ∧ d = 0 ∧ x = 0) as Hmw_fin.
  { intros v d x. rewrite (vget2_vset2 _ _ _ _ _ v d Hmw). case_decide; [naive_solver|].
    intros (row & ->%vget_replicate & ->%vget_replicate)%vget2_Some. done. }
  assert (vget mt 1 = Some 0) as Hmt1 by by eapply vget_vset_eq.
  assert (vget2 mw 1 0 = Some 0) as Hmw1.
  { rewrite (vget2_vset2 _ _ _ _ _ 1 0 Hmw). by rewrite decide_True. }
  assert (0 ≠ INF) as H0INF by (unfold INF; lia).
  pose proof (finite_count_pos _ _ _ Hmt1 H0INF) as Hk.
  split; [split|split]; simpl.
  - unfold tables_shape. simpl. split_and!.
    + rewrite (vset_length _ _ _ _ Hmt). unfold mt0. rewrite length_replicate. lia.
    + rewrite (vset2_length _ _ _ _ _ Hmw). unfold mw0. rewrite length_replicate. lia.
    + intros i row Hi. destruct (vset2_rows _ _ _ _ _ _ _ Hmw Hi) as (r & Hr & ->).
      apply vget_replicate in Hr as ->. rewrite length_replicate. unfold C. lia.
  - unfold C. lia.
  - intros s ->%list_elem_of_singleton. simpl.
    split_and!; try lia; [constructor|]. exists 0, 0. split_and!; try done; unfold C; lia.
  - intros v m Hv Hne. destruct (Hmt_fin v m Hv Hne) as [-> ->].
    split_and!; try lia; [unfold C; lia|]. exists 0. constructor.
  - intros v d x Hx Hne. destruct (Hmw_fin v d x Hx Hne) as (-> & -> & ->).
    split; [unfold INF; lia|]. eauto.
  - by left.
  - split; [done|]. exists 0. split; [done|lia].
  - intros v m d x Hv Hne Hx Hxne _. left.
    destruct (Hmt_fin v m Hv Hne) as [-> ->].
    destruct (Hmw_fin 1 d x Hx Hxne) as (_ & -> & ->). simpl. set_solver.
  - intros m d x Hv Hne Hx Hxne. left.
    destruct (Hmt_fin n0 m Hv Hne) as [-> ->].
    destruct (Hmw_fin 1 d x Hx Hxne) as (_ & -> & ->). simpl. set_solver.
Qed.

(** ** Reachable configurations *)

Section Reachable.
Variables (n0 : Z) (edges : list (Z * Z)) (g : graph) (c0 : config).
Hypothesis Hwf : wf_input n0 edges.
Hypothesis Hg : build n0 edges = Some g.
Hypothesis Hc0 : init n0 = Some c0.

Lemma step_preserves c tc c' :
  inv n0 edges c tc → complete n0 edges c → step g c c' →
  (∃ tc', inv n0 edges c' tc') ∧ complete n0 edges c' ∧ potential c' < potential c.
Proof.
  intros Hinv Hcm (s & q' & Hpop & Hbody).
  destruct (loop_body_spec _ _ _ Hwf Hg _ _ _ _ Hinv Hpop)
    as (m & x & c'' & Hm & _ & Hx & Hbody' & Hout & Hinv' & Hpot).
  assert (c'' = c') as -> by congruence.
  split_and!; [by eauto| |done].
  eapply (outcome_complete n0 edges g (graph_n _ _ _ Hwf Hg) c tc s q' m x); done.
Qed.

Lemma reachable_inv c :
  rtc (step g) c0 c → (∃ tc, inv n0 edges c tc) ∧ complete n0 edges c.
Proof.
  intros Hrtc. destruct (init_spec n0 edges Hwf) as (c0' & Hc0' & Hi0 & Hcm0).
  assert (c0' = c0) as -> by congruence.
  revert c Hrtc. apply rtc_ind_r; [by eauto|].
  intros c c' _ Hstep [[tc Hinv] Hcm].
  destruct (step_preserves _ _ _ Hinv Hcm Hstep) as (? & ? & _). done.
Qed.
End Reachable.

(** ** The queue *)

Lemma State_gt_false a b :
  State_gt a b = false ↔
  lex_le (total_time a, wait_time a) (total_time b, wait_time b).
Proof. unfold State_gt, lex_le. simpl. zb; split; intros; try done; lia. Qed.

Lemma pop_min_spec q s q' : pop_min q = Some (s, q') → pq_pop q s q'.
Proof.
  revert s q'. induction q as [|x r IH]; intros s q' Hpop; [done|].
  simpl in Hpop. destruct (pop_min r) as [[y r']|] eqn:Hr.
  - destruct (IH y r' eq_refl) as [(q1 & q2 & -> & ->) Hmin].
    destruct (State_gt x y) eqn:Hxy; simplify_eq.
    + split; [by exists (x :: q1), q2|]. constructor; [|done].
      apply State_gt_false. unfold State_gt, lex_le in *. simpl. zb; try done; lia.
    + split; [by eexists [], _|]. constructor.
      * apply State_gt_false, lex_le_refl.
      * eapply Forall_impl; [exact Hmin|]. simpl. intros z Hz.
        apply State_gt_false in Hxy, Hz. apply State_gt_false.
        by eapply lex_le_trans.
  - destruct r; [|simpl in Hr; by repeat case_match]. simplify_eq.
    split; [by exists [], []|]. constructor; [|done].
    apply State_gt_false, lex_le_refl.
Qed.

Lemma pop_min_None q : pop_min q = None → q = [].
Proof. destruct q as [|x r]; [done|]. simpl. by repeat case_match. Qed.

(** ** Termination *)

Section Termination.
Variables (n0 : Z) (edges : list (Z * Z)) (g : graph).
Hypothesis Hwf : wf_input n0 edges.
Hypothesis Hg : build n0 edges = Some g.

Lemma potential_nonneg c tc : inv n0 edges c tc → 0 ≤ potential c.
Proof.
  intros Hinv. unfold potential.
  assert (0 ≤ sumZ (min_t c)).
  { apply sumZ_nonneg, Forall_lookup. intros i m Hi.
    destruct (decide (m = INF)) as [->|Hne]; [unfold INF; lia|].
    destruct (inv_mt _ _ _ _ Hinv (Z.of_nat i) m) as (_ & ? & _); [|done|lia].
    apply vget_Some. rewrite Nat2Z.id. split; [lia|done]. }
  assert (0 ≤ sumZ (sumZ <$> min_w c)).
  { apply sumZ_nonneg, Forall_fmap, Forall_lookup. intros i row Hi. simpl.
    apply sumZ_nonneg, Forall_lookup. intros j x Hj.
    destruct (decide (x = INF)) as [->|Hne]; [unfold INF; lia|].
    destruct (inv_mw _ _ _ _ Hinv (Z.of_nat i) (Z.of_nat j) x) as [? _]; [|done|lia].
    apply vget2_Some. exists row. split; apply vget_Some; rewrite Nat2Z.id; (split; [lia|done]). }
  lia.
Qed.

Lemma run_terminates (fuel : nat) : ∀ c tc,
  inv n0 edges c tc → potential c < Z.of_nat fuel →
  ∃ c', run g fuel c = Some c' ∧ pq c' = [] ∧ rtc (step g) c c'.
Proof.
  induction fuel as [|k IH]; intros c tc Hinv Hpot.
  { pose proof (potential_nonneg _ _ Hinv). lia. }
  simpl. destruct (pop_min (pq c)) as [[s q']|] eqn:Hpop.
  - apply pop_min_spec in Hpop.
    destruct (loop_body_spec _ _ _ Hwf Hg _ _ _ _ Hinv Hpop)
      as (m & x & c1 & _ & _ & _ & Hbody & _ & Hinv1 & Hpot1).
    rewrite Hbody. simpl.
    destruct (IH c1 _ Hinv1) as (c' & Hrun & Hq & Hrtc); [lia|].
    exists c'. split_and!; [done..|].
    eapply rtc_l; [|done]. by exists s, q'.
  - exists c. split_and!; [done|by apply pop_min_None|done].
Qed.

Lemma nsteps_potential k c c' :
  (∃ tc, inv n0 edges c tc) → complete n0 edges c → nsteps (step g) k c c' →
  Z.of_nat k ≤ potential c.
Proof.
  intros Hinv Hcm Hn. revert Hinv Hcm.
  induction Hn as [c|k c c1 c' Hstep _ IH]; intros [tc Hinv] Hcm.
  { pose proof (potential_nonneg _ _ Hinv). lia. }
  destruct (step_preserves _ _ _ Hwf Hg _ _ _ Hinv Hcm Hstep) as (Hinv1 & Hcm1 & ?).
  specialize (IH Hinv1 Hcm1). lia.
Qed.
End Termination.

(** ** The answer at the end of the search *)

Lemma covered_mono c v t w w' : covered c v t w → w ≤ w' → covered c v t w'.
Proof.
  intros (m & Hm & Hne & Hle & Hin) Hw. exists m. split_and!; [done..|].
  intros Hlt. destruct (Hin Hlt) as (x & Hx & ?). exists x. split; [done|lia].
Qed.

Section Final.
Variables (n0 : Z) (edges : list (Z * Z)) (c : config) (tc : Z).
Hypothesis Hwf : wf_input n0 edges.
Hypothesis Hinv : inv n0 edges c tc.
Hypothesis Hcm : complete n0 edges c.
Hypothesis Hq : pq c = [].

(** A covered state inside the first [C] ticks has a table entry. *)
Lemma covered_entry v t w :
  covered c v t w → t < C → w < INF →
  ∃ m x, vget (min_t c) v = Some m ∧ m ≠ INF ∧ 0 ≤ m ≤ t ∧
         vget2 (min_w c) v (t - m) = Some x ∧ x ≤ w ∧ x ≠ INF.
Proof.
  intros (m & Hm & Hne & Hle & Hin) Ht Hw.
  destruct (inv_mt _ _ _ _ Hinv _ _ Hm Hne) as (_ & ? & _).
  destruct Hin as (x & Hx & ?); [lia|].
  exists m, x. split_and!; try done; lia.
Qed.

Lemma entry_expanded v m d x :
  vget (min_t c) v = Some m → m ≠ INF → vget2 (min_w c) v d = Some x → x ≠ INF →
  m + d ≤ (ans c).1 → expanded edges c v (m + d) x.
Proof.
  intros Hm Hne Hx Hxne Hle.
  destruct (cm_exp _ _ _ Hcm v m d x Hm Hne Hx Hxne Hle) as [Hin|?]; [|done].
  rewrite Hq in Hin. by apply elem_of_nil in Hin.
Qed.

Lemma final_covered x t w :
  walk edges x t w → t < C → t ≤ (ans c).1 → covered c x t w.
Proof.
  induction 1 as [|x t w Hwalk IH|x t w y Hwalk IH Hsel]; intros Ht Hans.
  - destruct (inv_src _ _ _ _ Hinv) as (Hm & z & Hz & ?).
    exists 0. split_and!; [done|unfold INF; lia|lia|]. intros _. by exists z.
  - pose proof (walk_bounds _ _ _ _ Hwalk).
    destruct (covered_entry x t w) as (m & z & Hm & Hne & ? & Hz & ? & ?);
      [apply IH; lia|lia|unfold INF, C in *; lia|].
    destruct (entry_expanded x m (t - m) z) as [Hc _]; [done..|lia|].
    replace (m + (t - m)) with t in Hc by lia.
    eapply covered_mono; [exact Hc|lia].
  - pose proof (walk_bounds _ _ _ _ Hwalk).
    destruct (covered_entry x t w) as (m & z & Hm & Hne & ? & Hz & ? & ?);
      [apply IH; lia|lia|unfold INF, C in *; lia|].
    destruct (entry_expanded x m (t - m) z) as [_ Hc]; [done..|lia|].
    replace (m + (t - m)) with t in Hc by lia.
    eapply covered_mono; [by apply Hc|lia].
Qed.

Lemma ans_time_ge T W :
  lex_min_arrival n0 edges T W → T < INF → T ≤ (ans c).1.
Proof.
  intros [_ Hmin] HT. destruct (inv_ans _ _ _ _ Hinv) as [->|Hw]; [simpl; lia|].
  specialize (Hmin _ _ Hw). unfold lex_le in Hmin. simpl in Hmin. lia.
Qed.

(** At the end the target entry of the optimal arrival is in the table. *)
Lemma final_target_entry T W :
  lex_min_arrival n0 edges T W → T ≤ C →
  ∃ m d x, vget (min_t c) n0 = Some m ∧ m ≠ INF ∧
           vget2 (min_w c) n0 d = Some x ∧ x ≠ INF ∧ m + d = T ∧ x ≤ W.
Proof.
  intros Hlex HT. pose proof Hlex as [Hwalk Hmin].
  pose proof (walk_bounds _ _ _ _ Hwalk) as HWT.
  assert (T ≤ (ans c).1) as Hans by (apply (ans_time_ge T W); [done|unfold INF, C in *; lia]).
  assert (W < INF) as HW by (unfold INF, C in *; lia).
  destruct (decide (T < C)) as [Hlt|Hge].
  { destruct (covered_entry n0 T W) as (m & z & Hm & Hne & ? & Hz & ? & ?);
      [by apply final_covered|done..|].
    exists m, (T - m), z. split_and!; try done; lia. }
  assert (T = C) as HTC by lia.
  inversion Hwalk as [Hn HT0 HW0|x t w Hw' Hn HT0 HW0|x t w y Hw' Hsel Hn HT0 HW0].
  - unfold C in *. lia.
  - exfalso. specialize (Hmin _ _ Hw'). unfold lex_le in Hmin. simpl in Hmin. lia.
  - pose proof (walk_bounds _ _ _ _ Hw').
    destruct (covered_entry x t W) as (m & z & Hm & Hne & ? & Hz & ? & ?);
      [apply final_covered; [done|lia|lia]|lia|done|].
    destruct (entry_expanded x m (t - m) z) as [_ Hc]; [done..|lia|].
    replace (m + (t - m)) with t in Hc by lia.
    destruct (Hc n0 Hsel) as (mn & Hmn & Hnen & Hlen & Hin).
    destruct (inv_mt _ _ _ _ Hinv _ _ Hmn Hnen) as (_ & ? & _ & w0 & Hw0).
    specialize (Hmin _ _ Hw0). unfold lex_le in Hmin. simpl in Hmin.
    destruct Hin as (zn & Hzn & ?); [unfold C in *; lia|].
    exists mn, (t + 1 - mn), zn. split_and!; try done; lia.
Qed.

Lemma final_answer T W :
  lex_min_arrival n0 edges T W → T ≤ C → ans c = (T, W).
Proof.
  intros Hlex HT.
  destruct (final_target_entry T W Hlex HT) as (m & d & x & Hm & Hne & Hx & Hxne & <- & HxW).
  pose proof Hlex as [Hwalk Hmin].
  destruct (cm_ans _ _ _ Hcm m d x Hm Hne Hx Hxne) as [Hin|Hle].
  { rewrite Hq in Hin. by apply elem_of_nil in Hin. }
  unfold lex_le in Hle. simpl in Hle.
  destruct (inv_ans _ _ _ _ Hinv) as [Ha|Hw].
  { rewrite Ha in Hle. simpl in Hle. unfold INF, C in *. lia. }
  specialize (Hmin _ _ Hw). unfold lex_le in Hmin. simpl in Hmin.
  destruct (ans c) as [a1 a2]. simpl in *. f_equal; lia.
Qed.
End Final.

(** ** What one iteration pushes *)

Lemma set_ans_same c : set_ans (ans c) c = c.
Proof. by destruct c. Qed.

Lemma relax_wait_cases s dt c c' :
  relax_wait s dt c = Some c' →
  c' = c ∨
  ∃ mw, vset2 (min_w c) (node s) (dt + 1) (wait_time s + 1) = Some mw ∧
        c' = mkConfig (min_t c) mw
               (mkState (total_time s + 1) (wait_time s + 1) (node s) :: pq c) (ans c).
Proof.
  unfold relax_wait. intros H.
  destruct (vget (min_t c) (node s)) as [mt_u|]; simpl in H; [|done].
  destruct (total_time s + 1 <? mt_u + C); [|left; congruence].
  destruct (vget2 (min_w c) (node s) (dt + 1)) as [cur|]; simpl in H; [|done].
  destruct (wait_time s + 1 <? cur); [|left; congruence].
  destruct (vset2 _ _ _ _) as [mw|]; simpl in H; [|done].
  right. exists mw. split; congruence.
Qed.

Lemma accept_move_cases t w v c c' :
  accept_move t w v c = Some c' →
  c' = c ∨ (pq c' = mkState t w v :: pq c ∧ ans c' = ans c).
Proof.
  unfold accept_move. intros H.
  destruct (vget (min_t c) v) as [mt_v|]; simpl in H; [|done].
  destruct (t <? mt_v).
  - destruct (vset _ _ _); simpl in H; [|done].
    destruct (vset2 _ _ _ _); simpl in H; [|done]. right. by simplify_eq.
  - destruct (_ <? C); [|left; congruence].
    destruct (vget2 _ _ _) as [cur|]; simpl in H; [|done].
    destruct (w <? cur); [|left; congruence].
    destruct (vset2 _ _ _ _); simpl in H; [|done]. right. by simplify_eq.
Qed.

Lemma loop_body_pushes g s c c' :
  loop_body g s c = Some c' →
  (ans c' = ans c ∨ ans c' = record_ans g s (ans c)) ∧
  ∀ s', s' ∈ pq c' →
    s' ∈ pq c ∨
    s' = mkState (total_time s + 1) (wait_time s + 1) (node s) ∨
    ∃ v, move_target g (node s) (total_time s) = Some (Some v) ∧
         s' = mkState (total_time s + 1) (wait_time s) v.
Proof.
  unfold loop_body. intros H.
  destruct (vget (min_t c) (node s)) as [mt_u|]; simpl in H; [|done].
  destruct (_ || _); [simplify_eq; by eauto|].
  destruct (_ >=? C); [simplify_eq; by eauto|].
  destruct (vget2 _ _ _) as [cur|]; simpl in H; [|done].
  destruct (wait_time s >? cur); [simplify_eq; by eauto|].
  destruct (total_time s >? _).
  { simplify_eq. simpl. by eauto. }
  destruct (relax_wait s _ _) as [c2|] eqn:Hw; simpl in H; [|done].
  unfold relax_move in H.
  destruct (move_target g (node s) (total_time s)) as [tgt|] eqn:Ht; simpl in H; [|done].
  assert (ans c2 = record_ans g s (ans c) ∧
          ∀ s', s' ∈ pq c2 → s' ∈ pq c ∨
             s' = mkState (total_time s + 1) (wait_time s + 1) (node s)) as [Ha2 Hq2].
  { destruct (relax_wait_cases _ _ _ _ Hw) as [->|(mw & _ & ->)]; simpl.
    - split; [done|]. by left.
    - split; [done|]. intros s' [->|?]%elem_of_cons; eauto. }
  destruct tgt as [v|]; [|simplify_eq].
  - destruct (accept_move_cases _ _ _ _ _ H) as [->|[Hq Ha]].
    + split; [by right|]. intros s' Hs'. destruct (Hq2 s' Hs'); eauto.
    + split; [right; congruence|].
      intros s'. rewrite Hq. intros [->|Hs']%elem_of_cons; [by eauto 6|].
      destruct (Hq2 s' Hs'); eauto.
  - split; [by right|]. intros s' Hs'. destruct (Hq2 s' Hs'); eauto.
Qed.

Lemma init_pq n0 c0 : init n0 = Some c0 → pq c0 = [mkState 0 0 1] ∧ ans c0 = (INF, INF).
Proof.
  unfold init. intros H.
  destruct (vset _ _ _); simpl in H; [|done].
  destruct (vset2 _ _ _ _); simpl in H; [|done]. by simplify_eq.
Qed.

(** ** Results of the whole search *)

Lemma run_steps g fuel : ∀ c c', run g fuel c = Some c' → rtc (step g) c c' ∧ pq c' = [].
Proof.
  induction fuel as [|k IH]; intros c c' Hrun; [done|]. simpl in Hrun.
  destruct (pop_min (pq c)) as [[s q']|] eqn:Hpop.
  - destruct (loop_body g s (set_pq q' c)) as [c1|] eqn:Hbody; simpl in Hrun; [|done].
    destruct (IH _ _ Hrun) as [Hrtc Hq]. split; [|done].
    eapply rtc_l; [|done]. exists s, q'. split; [by apply pop_min_spec|done].
  - simplify_eq. split; [done|by apply pop_min_None].
Qed.

Lemma solve_prints fuel n0 edges out :
  solve fuel n0 edges = Some out → prints n0 edges out.
Proof.
  unfold solve, prints. intros H.
  destruct (build n0 edges) as [g|]; simpl in H; [|done].
  destruct (init n0) as [c0|]; simpl in H; [|done].
  destruct (run g fuel c0) as [c|] eqn:Hrun; simpl in H; [|done].
  destruct (run_steps _ _ _ _ Hrun). exists g, c0, c. by simplify_eq.
Qed.

Section Results.
Variables (n0 : Z) (edges : list (Z * Z)).
Hypothesis Hwf : wf_input n0 edges.

Lemma solve_total :
  ∃ g c0 fuel c, build n0 edges = Some g ∧ init n0 = Some c0 ∧
    run g fuel c0 = Some c ∧ solve fuel n0 edges = Some (ans c).
Proof.
  destruct (build_spec n0 edges Hwf) as (g & Hg & _).
  destruct (init_spec n0 edges Hwf) as (c0 & Hc0 & Hinv & _).
  pose proof (potential_nonneg _ _ _ _ Hinv) as Hpot.
  destruct (run_terminates n0 edges g Hwf Hg (S (Z.to_nat (potential c0))) c0 0 Hinv)
    as (c & Hrun & _); [lia|].
  revert Hrun. generalize (S (Z.to_nat (potential c0))). intros fuel Hrun.
  exists g, c0, fuel, c. split_and!; try done.
  unfold solve. rewrite Hg, Hc0. simpl. by rewrite Hrun.
Qed.

Lemma prints_final out :
  prints n0 edges out →
  ∃ c tc, inv n0 edges c tc ∧ complete n0 edges c ∧ pq c = [] ∧ ans c = out.
Proof.
  intros (g & c0 & c & Hg & Hc0 & Hrtc & Hq & Ha).
  destruct (reachable_inv n0 edges g c0 Hwf Hg Hc0 c Hrtc) as [[tc Hinv] Hcm].
  by exists c, tc.
Qed.

(** If every final configuration holds the answer [a], then [a] is what
    the program prints, and it does print. *)
Lemma result_unique a :
  (∀ c tc, inv n0 edges c tc → complete n0 edges c → pq c = [] → ans c = a) →
  (∃ fuel, solve fuel n0 edges = Some a) ∧ ∀ out, prints n0 edges out → out = a.
Proof.
  intros Hfin.
  assert (∀ out, prints n0 edges out → out = a) as Huniq.
  { intros out (c & tc & Hinv & Hcm & Hq & <-)%prints_final. by eapply Hfin. }
  split; [|done].
  destruct solve_total as (g & c0 & fuel & c & _ & _ & _ & Hsolve).
  exists fuel. rewrite Hsolve. f_equal. by eapply Huniq, solve_prints.
Qed.
End Results.

Lemma walk_time_zero edges x t w : walk edges x t w → t = 0 → x = 1 ∧ w = 0.
Proof.
  induction 1 as [|x t w Hw _|x t w y Hw _ _]; intros Ht; [done|..];
    pose proof (walk_bounds _ _ _ _ Hw); lia.
Qed.

(** ** A star on which the window hides the target *)

Section Star.
Lemma neighbors_centre l :
  Forall (λ i, i ≠ 1) l → neighbors ((λ i, (1, i)) <$> l) 1 = l.
Proof.
  induction 1 as [|i l Hi _ IH]; [done|].
  rewrite fmap_cons. cbn [neighbors fst snd]. rewrite IH.
  destruct (Z.eqb_spec i 1); done.
Qed.

Lemma neighbors_other l j :
  j ≠ 1 → j ∉ l → neighbors ((λ i, (1, i)) <$> l) j = [].
Proof.
  intros Hj. induction l as [|i l IH]; [done|].
  intros [? ?]%not_elem_of_cons.
  rewrite fmap_cons. cbn [neighbors fst snd]. rewrite IH by done.
  destruct (Z.eqb_spec 1 j); [congruence|].
  destruct (Z.eqb_spec i j); [congruence|done].
Qed.

Lemma neighbors_leaf l j :
  j ≠ 1 → NoDup l → j ∈ l → neighbors ((λ i, (1, i)) <$> l) j = [1].
Proof.
  intros Hj. induction 1 as [|i l Hi Hnd IH]; [by intros ?%elem_of_nil|].
  intros Hin. rewrite fmap_cons. cbn [neighbors fst snd].
  destruct (Z.eqb_spec 1 j); [congruence|]. simpl.
  destruct (Z.eqb_spec i j) as [->|Hij].
  - by rewrite neighbors_other.
  - apply elem_of_cons in Hin as [?|?]; [congruence|]. by apply IH.
Qed.

Lemma star_wf : wf_input 602 star_edges.
Proof.
  split_and!; [lia|unfold C, int_max; lia| |].
  - unfold star_edges. rewrite length_fmap, length_seqZ. unfold int_max. lia.
  - unfold star_edges. apply Forall_fmap, Forall_seqZ. simpl. lia.
Qed.

Lemma star_select_centre t :
  0 ≤ t → select star_edges 1 t = Some (2 + t `mod` 601).
Proof.
  intros Ht. unfold select, star_edges. rewrite neighbors_centre.
  2: { apply Forall_seqZ. lia. }
  rewrite length_seqZ. simpl. replace (Z.of_nat (Z.to_nat 601)) with 601 by lia.
  pose proof (Z.mod_pos_bound t 601). rewrite lookup_seqZ_lt by lia. f_equal. lia.
Qed.

Lemma star_select_leaf j t : 2 ≤ j ≤ 602 → select star_edges j t = Some 1.
Proof.
  intros Hj. unfold select, star_edges. rewrite neighbors_leaf.
  - simpl. by rewrite Z.mod_1_r.
  - lia.
  - apply NoDup_seqZ.
  - apply elem_of_seqZ. lia.
Qed.

Lemma star_walk_centre (k : nat) :
  Z.of_nat k ≤ 300 → walk star_edges 1 (2 * Z.of_nat k) 0.
Proof.
  induction k as [|k IH]; intros Hk; [constructor|].
  replace (2 * Z.of_nat (S k)) with (2 * Z.of_nat k + 1 + 1) by lia.
  eapply walk_move; [eapply walk_move; [apply IH; lia|]|].
  - apply star_select_centre. lia.
  - apply star_select_leaf.
    pose proof (Z.mod_pos_bound (2 * Z.of_nat k) 601). lia.
Qed.

Lemma star_walk_target : walk star_edges 602 601 0.
Proof.
  change 601 with (2 * Z.of_nat 300 + 1).
  eapply walk_move; [apply star_walk_centre; lia|].
  rewrite star_select_centre by lia. done.
Qed.

(** The target is entered only from the centre, at a time 600 mod 601. *)
Lemma star_select_target x t :
  1 ≤ x ≤ 602 → 0 ≤ t → select star_edges x t = Some 602 →
  x = 1 ∧ 600 ≤ t.
Proof.
  intros Hx Ht. destruct (decide (x = 1)) as [->|Hne].
  - rewrite star_select_centre by done. intros [= Hmod]. split; [done|].
    pose proof (Z.mod_le t 601). lia.
  - rewrite star_select_leaf by lia. done.
Qed.

Lemma star_arrival x t w : walk star_edges x t w → x = 602 → 601 ≤ t.
Proof.
  induction 1 as [|x t w Hw IH|x t w y Hw IH Hsel]; intros Hx; [done|..].
  - specialize (IH Hx). lia.
  - subst y. pose proof (walk_bounds _ _ _ _ Hw).
    pose proof (walk_range _ _ _ _ _ star_wf Hw).
    destruct (star_select_target x t) as [_ ?]; [done|lia|done|lia].
Qed.

Lemma star_lex_min : lex_min_arrival 602 star_edges 601 0.
Proof.
  split; [apply star_walk_target|]. intros t w Hw.
  pose proof (star_arrival _ _ _ Hw eq_refl). pose proof (walk_bounds _ _ _ _ Hw).
  unfold lex_le. simpl. lia.
Qed.

(** The search never reaches the target: the centre is only known inside
    its window [0, C), which ends before time 600. *)
Lemma star_never_reached g c0 c :
  build 602 star_edges = Some g → init 602 = Some c0 → rtc (step g) c0 c →
  ans c = (INF, INF) ∧ ∀ s, s ∈ pq c → node s ≠ 602.
Proof.
  intros Hg Hc0 Hrtc.
  pose proof (reachable_inv _ _ _ _ star_wf Hg Hc0) as Hreach.
  revert c Hrtc Hreach. apply (rtc_ind_r (λ c, _ → _)).
  { intros _. destruct (init_pq _ _ Hc0) as [-> ->]. split; [done|].
    by intros s ->%list_elem_of_singleton. }
  intros c c' Hrtc (s & q' & Hpop & Hbody) IH Hreach.
  destruct (IH Hreach) as [Hans Hpq]. clear IH.
  destruct (Hreach c Hrtc) as [[tc Hinv] _].
  destruct (pq_pop_facts _ _ _ Hpop) as (Hs & Hsub & _).
  destruct (loop_body_pushes _ _ _ _ Hbody) as [Ha Hpush]. simpl in *.
  destruct (inv_pq _ _ _ _ Hinv s Hs) as (Hu & Hw & _ & _ & m & x & Hm & _ & Hwin & _).
  split.
  - destruct Ha as [Ha|Ha]; rewrite Ha; [done|].
    destruct (record_ans_cases g s (ans c)) as [[-> _]|(_ & Hn & _)]; [done|].
    rewrite (graph_n _ _ _ star_wf Hg) in Hn. exfalso. exact (Hpq s Hs Hn).
  - intros s' [Hin|[->|(v & Hmt & ->)]]%Hpush; cbn [node];
      [exact (Hpq _ (Hsub _ Hin))|exact (Hpq _ Hs)|].
    intros ->. rewrite (move_target_select _ _ _ _ _ star_wf Hg) in Hmt by lia.
    injection Hmt as Hsel. clear Hg Hreach.
    assert (0 ≤ total_time s) as Ht0 by lia.
    destruct (star_select_target _ _ Hu Ht0 Hsel) as [H1 Ht].
    rewrite H1 in Hm. destruct (inv_src _ _ _ _ Hinv) as [Hm1 _].
    rewrite Hm1 in Hm. injection Hm as <-. unfold C in Hwin. lia.
Qed.

Lemma star_prints out : prints 602 star_edges out → out = (INF, INF).
Proof.
  intros (g & c0 & c & Hg & Hc0 & Hrtc & _ & <-).
  by destruct (star_never_reached g c0 c Hg Hc0 Hrtc).
Qed.
End Star.

(** * The claims of the specification *)

(** The scenarios of the specification, run with [pop_min] as the queue. *)
Example solve_single_edge : solve 100 2 single_edge = Some (1, 0).
Proof. vm_compute. reflexivity. Qed.

Example solve_no_edges : solve 1000 2 [] = Some (INF, INF).
Proof. vm_compute. reflexivity. Qed.

Example solve_self_loop : solve 2000 1 [(1, 1)] = Some (0, 0).
Proof. vm_compute. reflexivity. Qed.


Lemma cons_ne {A} (x : A) l : l ≠ x :: l.
Proof. intros H. apply (f_equal length) in H. simpl in H. lia. Qed.

Lemma accept_move_rule t w v c c' mt_v :
  vget (min_t c) v = Some mt_v → t - mt_v ≤ int_max →
  accept_move t w v c = Some c' → accept_rule v t w mt_v c c'.
Proof.
  intros Hm Hint. unfold accept_move, accept_rule. rewrite Hm. simpl.
  destruct (Z.ltb_spec t mt_v) as [Hlt|Hge].
  - destruct (vset (min_t c) v t) as [mt|] eqn:Hmt; simpl; [|done].
    destruct (vset2 (min_w c) v 0 w) as [mw|] eqn:Hmw; simpl; [|done].
    intros [= <-]. simpl. split_and!; [by left|lia|]. intros _. split_and!.
    + done.
    + by eapply vget_vset_eq.
    + rewrite (vget2_vset2 _ _ _ _ _ v 0 Hmw). by rewrite decide_True.
    + intros d Hd. rewrite (vget2_vset2 _ _ _ _ _ v d Hmw).
      rewrite decide_False; [done|]. by intros [_ ?].
  - rewrite to_int_small by (unfold int_max in *; lia).
    destruct (Z.ltb_spec (t - mt_v) C) as [Hin|Hout].
    + destruct (vget2 (min_w c) v (t - mt_v)) as [cur|] eqn:Hcur; simpl; [|done].
      destruct (Z.ltb_spec w cur) as [Hw|Hw].
      * destruct (vset2 (min_w c) v (t - mt_v) w) as [mw|] eqn:Hmw; simpl; [|done].
        intros [= <-]. simpl. split_and!; [by left| |lia]. intros _. split.
        -- split; [by eauto|done].
        -- intros _. split; [done|].
           rewrite (vget2_vset2 _ _ _ _ _ v (t - mt_v) Hmw). by rewrite decide_True.
      * intros [= <-]. split_and!; [by right| |lia]. intros _. split.
        -- split; [by intros ?%cons_ne|]. intros (_ & cur' & [= <-] & ?). lia.
        -- by intros ?%cons_ne.
    + intros [= <-]. split_and!; [by right| |lia]. intros _. split.
      * split; [by intros ?%cons_ne|]. lia.
      * by intros ?%cons_ne.
Qed.

Lemma relax_wait_rule s c c' mt_u :
  vget (min_t c) (node s) = Some mt_u →
  relax_wait s (total_time s - mt_u) c = Some c' →
  accept_rule (node s) (total_time s + 1) (wait_time s + 1) mt_u c c'.
Proof.
  intros Hm. unfold relax_wait, accept_rule. rewrite Hm. simpl.
  replace (total_time s - mt_u + 1) with (total_time s + 1 - mt_u) by lia.
  destruct (Z.ltb_spec (total_time s + 1) (mt_u + C)) as [Hin|Hout].
  - destruct (vget2 (min_w c) (node s) (total_time s + 1 - mt_u)) as [cur|] eqn:Hcur;
      simpl; [|done].
    assert (mt_u ≤ total_time s + 1) as Hge.
    { apply vget2_Some in Hcur as (row & _ & [? _]%vget_Some). lia. }
    destruct (Z.ltb_spec (wait_time s + 1) cur) as [Hw|Hw].
    + destruct (vset2 _ _ _ _) as [mw|] eqn:Hmw; simpl; [|done].
      intros [= <-]. simpl. split_and!; [by left| |lia]. intros _. split.
      * split; [|done]. intros _. split; [lia|by eauto].
      * intros _. split; [done|].
        rewrite (vget2_vset2 _ _ _ _ _ (node s) (total_time s + 1 - mt_u) Hmw).
        by rewrite decide_True.
    + intros [= <-]. split_and!; [by right| |lia]. intros _. split.
      * split; [by intros ?%cons_ne|]. intros (_ & cur' & [= <-] & ?). lia.
      * by intros ?%cons_ne.
  - intros [= <-]. split_and!; [by right| |unfold C in *; lia]. intros _. split.
    + split; [by intros ?%cons_ne|]. lia.
    + by intros ?%cons_ne.
Qed.

Lemma single_edge_wf : wf_input 2 single_edge.
Proof.
  unfold wf_input, single_edge, C, int_max. simpl.
  split_and!; try lia. repeat constructor; simpl; lia.
Qed.

Lemma single_edge_lex_min : lex_min_arrival 2 single_edge 1 0.
Proof.
  split.
  - apply (walk_move single_edge 1 0 0 2); [constructor|reflexivity].
  - intros t w Hw. pose proof (walk_bounds _ _ _ _ Hw).
    destruct (decide (t = 0)) as [Ht|Ht].
    + destruct (walk_time_zero _ _ _ _ Hw Ht). lia.
    + unfold lex_le. simpl. lia.
Qed.

(** C1 (as amended): for every well-formed input whose lexicographically
    least (arrival time, wait) pair [(T, W)] at node N has [T <= C = 600], the
    program terminates and prints exactly [(T, W)]. *)
Theorem optimal_within_window n0 edges T W :
  wf_input n0 edges → lex_min_arrival n0 edges T W → T ≤ C →
  (∃ fuel, solve fuel n0 edges = Some (T, W)) ∧
  ∀ out, prints n0 edges out → out = (T, W).
Proof.
  intros Hwf Hlex HT. apply result_unique; [done|].
  intros c tc Hinv Hcm Hq. by eapply final_answer.
Qed.

Lemma optimal_within_window_witness :
  wf_input 2 single_edge ∧ lex_min_arrival 2 single_edge 1 0 ∧ 1 ≤ C ∧
  (∃ fuel, solve fuel 2 single_edge = Some (1, 0)) ∧
  ∀ out, prints 2 single_edge out → out = (1, 0).
Proof.
  split; [apply single_edge_wf|]. split; [apply single_edge_lex_min|].
  split; [unfold C; lia|].
  apply (optimal_within_window 2 single_edge 1 0);
    [apply single_edge_wf|apply single_edge_lex_min|unfold C; lia].
Defined.

(** C1 (as stated) fails: on the star with centre 1 and leaves 2..602 the
    least pair at node 602 is (601, 0), yet every run prints the sentinel. *)
Lemma window_hides_star_target :
  wf_input 602 star_edges ∧ lex_min_arrival 602 star_edges 601 0 ∧
  (∃ fuel, solve fuel 602 star_edges = Some (INF, INF)) ∧
  (∀ out, prints 602 star_edges out → out = (INF, INF)) ∧
  ¬ (∀ n0 edges T W, wf_input n0 edges → lex_min_arrival n0 edges T W →
       ∀ out, prints n0 edges out → out = (T, W)).
Proof.
  assert (∃ fuel, solve fuel 602 star_edges = Some (INF, INF)) as Hsolve.
  { destruct (solve_total _ _ star_wf) as (g & c0 & fuel & c & _ & _ & _ & Hs).
    exists fuel. rewrite Hs. f_equal. by eapply star_prints, solve_prints. }
  split_and!; [apply star_wf|apply star_lex_min|done|apply star_prints|].
  intros Hclaim. destruct Hsolve as [fuel Hs%solve_prints].
  specialize (Hclaim _ _ _ _ star_wf star_lex_min _ Hs). by injection Hclaim.
Qed.

(** C2: when no wait/move walk reaches node N, the search runs until the
    queue is empty and prints the sentinel (INF, INF), INF = 10^18. *)
Theorem unreachable_prints_sentinel n0 edges :
  wf_input n0 edges → (∀ t w, ¬ walk edges n0 t w) →
  INF = 10 ^ 18 ∧
  (∃ fuel, solve fuel n0 edges = Some (INF, INF)) ∧
  ∀ out, prints n0 edges out → out = (INF, INF).
Proof.
  intros Hwf Hno. split; [reflexivity|]. apply result_unique; [done|].
  intros c tc Hinv _ _. destruct (inv_ans _ _ _ _ Hinv) as [?|Hw]; [done|].
  by apply Hno in Hw.
Qed.

Lemma no_edges_walk x t w : walk [] x t w → x = 1.
Proof. induction 1 as [| |? ? ? ? _ _ Hsel]; done. Qed.

Lemma unreachable_prints_sentinel_witness :
  wf_input 2 [] ∧ (∀ t w, ¬ walk [] 2 t w) ∧
  INF = 10 ^ 18 ∧
  (∃ fuel, solve fuel 2 [] = Some (INF, INF)) ∧
  ∀ out, prints 2 [] out → out = (INF, INF).
Proof.
  assert (wf_input 2 []) as Hwf.
  { unfold wf_input, C, int_max. simpl. split_and!; try lia. constructor. }
  assert (∀ t w, ¬ walk [] 2 t w) as Hno.
  { intros t w Hw. apply no_edges_walk in Hw. lia. }
  split; [exact Hwf|]. split; [exact Hno|].
  exact (unreachable_prints_sentinel 2 [] Hwf Hno).
Defined.

(** C3: for a node [u] of a well-formed input and a time [t >= 0], with
    [nb] the incident-edge list of [u] in input order and [deg(u)] its
    length: if [deg(u) > 0] the move action offers exactly the successor
    whose node is [nb[t mod deg(u)]]; if [deg(u) = 0] it offers none and
    leaves the configuration as it is. *)
Theorem move_selects_input_order n0 edges g x t :
  wf_input n0 edges → build n0 edges = Some g → 1 ≤ x ≤ n0 → 0 ≤ t →
  let nb := neighbors edges x in
  let d := Z.of_nat (length nb) in
  vget (deg g) x = Some d ∧
  (0 < d → ∃ v, nb !! Z.to_nat (t `mod` d) = Some v ∧
      move_target g x t = Some (Some v) ∧
      ∀ s c, node s = x → total_time s = t →
        relax_move g s c = accept_move (t + 1) (wait_time s) v c) ∧
  (d = 0 → move_target g x t = Some None ∧
      ∀ s c, node s = x → total_time s = t → relax_move g s c = Some c).
Proof.
  intros Hwf Hg Hx Ht nb d.
  destruct (build_spec n0 edges Hwf) as (g' & Hg' & _ & Hrows).
  assert (g' = g) as -> by congruence. destruct (Hrows x Hx) as [_ Hdeg].
  pose proof (move_target_select n0 edges g x t Hwf Hg Hx Ht) as Hmt.
  unfold select in Hmt. fold nb d in Hmt. split; [done|]. split.
  - intros Hd. destruct (Z.eqb_spec d 0) as [|_]; [lia|].
    pose proof (Z.mod_pos_bound t d Hd).
    destruct (lookup_lt_is_Some_2 nb (Z.to_nat (t `mod` d))) as [v Hv]; [unfold d in *; lia|].
    exists v. rewrite Hv in Hmt. split_and!; [done..|].
    intros s c <- <-. unfold relax_move. by rewrite Hmt.
  - intros Hd. rewrite Hd in Hmt. simpl in Hmt. split; [done|].
    intros s c <- <-. unfold relax_move. by rewrite Hmt.
Qed.

Lemma move_selects_input_order_witness :
  wf_input 2 single_edge ∧ build 2 single_edge = Some single_edge_graph ∧
  1 ≤ 1 ≤ 2 ∧ 0 ≤ 0 ∧
  vget (deg single_edge_graph) 1 = Some 1 ∧
  move_target single_edge_graph 1 0 = Some (Some 2).
Proof.
  pose proof (move_selects_input_order 2 single_edge single_edge_graph 1 0
                single_edge_wf eq_refl ltac:(lia) ltac:(lia)) as (Hdeg & Hpos & _).
  split; [apply single_edge_wf|]. split; [reflexivity|]. split; [lia|]. split; [lia|].
  split; [exact Hdeg|]. destruct Hpos as (v & Hv & Hmt & _); [simpl; lia|].
  injection Hv as <-. exact Hmt.
Defined.

(** C4: a successor [(v, t', w')] offered by the loop body (as move or as
    wait successor) follows the acceptance rule: with [t' >= min_t[v]] it is
    pushed exactly when its offset [t' - min_t[v]] is below [C] and [w'] is
    less than [min_w[v][t' - min_t[v]]], and that slot then holds [w']; with
    [t' < min_t[v]] the minimum becomes [t'], slot 0 becomes [w'], the state
    is pushed and the slots at the other offsets keep their values. *)
Theorem successor_acceptance v t w mt_v c c' :
  vget (min_t c) v = Some mt_v → offered v t w mt_v c c' →
  accept_rule v t w mt_v c c'.
Proof.
  intros Hm [[Hacc Hint]|(s & <- & <- & <- & Hrw)].
  - by eapply accept_move_rule.
  - by eapply relax_wait_rule.
Qed.

Lemma successor_acceptance_witness :
  vget (min_t init_two) 2 = Some INF ∧ offered 2 1 0 INF init_two
    (mkConfig [INF; 0; 1]
       [replicate 600 INF; 0 :: replicate 599 INF; 0 :: replicate 599 INF]
       [mkState 1 0 2; mkState 0 0 1] (INF, INF)) ∧
  accept_rule 2 1 0 INF init_two
    (mkConfig [INF; 0; 1]
       [replicate 600 INF; 0 :: replicate 599 INF; 0 :: replicate 599 INF]
       [mkState 1 0 2; mkState 0 0 1] (INF, INF)).
Proof.
  assert (offered 2 1 0 INF init_two
    (mkConfig [INF; 0; 1]
       [replicate 600 INF; 0 :: replicate 599 INF; 0 :: replicate 599 INF]
       [mkState 1 0 2; mkState 0 0 1] (INF, INF))) as Hoff.
  { left. split; [vm_compute; reflexivity|unfold INF, int_max; lia]. }
  split; [reflexivity|]. split; [exact Hoff|].
  exact (successor_acceptance 2 1 0 INF init_two _ eq_refl Hoff).
Defined.

(** C5: in one iteration, a popped state whose time is greater than the
    recorded answer time changes nothing (it generates no successor); a valid
    popped state whose time equals the answer time is expanded by both
    options; and the recorded answer changes only to a popped target state
    that is lexicographically smaller than it. *)
Theorem early_exit_after_answer g s c c' :
  loop_body g s c = Some c' →
  ((ans c).1 < total_time s → c' = c) ∧
  (ans c' ≠ ans c →
     node s = n g ∧ lex_lt (total_time s, wait_time s) (ans c) ∧
     ans c' = (total_time s, wait_time s)) ∧
  (total_time s = (ans c).1 →
     ∀ mt_u cur, vget (min_t c) (node s) = Some mt_u → mt_u ≠ INF →
       mt_u ≤ total_time s < mt_u + C →
       vget2 (min_w c) (node s) (total_time s - mt_u) = Some cur →
       wait_time s ≤ cur →
       ∃ c2, relax_wait s (total_time s - mt_u)
               (set_ans (record_ans g s (ans c)) c) = Some c2 ∧
             relax_move g s c2 = Some c').
Proof.
  intros Hbody. split_and!.
  - intros Hlate. revert Hbody. unfold loop_body.
    destruct (vget (min_t c) (node s)) as [mt_u|]; simpl; [|done].
    destruct (_ || _); [congruence|]. destruct (_ >=? C); [congruence|].
    destruct (vget2 _ _ _) as [cur|]; simpl; [|done].
    destruct (wait_time s >? cur); [congruence|].
    assert (record_ans g s (ans c) = ans c) as ->.
    { destruct (record_ans_cases g s (ans c)) as [[-> _]|(_ & _ & Hlt)]; [done|].
      unfold lex_lt in Hlt. simpl in Hlt. lia. }
    rewrite set_ans_same. destruct (Z.gtb_spec (total_time s) (ans c).1); [congruence|lia].
  - intros Hne. destruct (loop_body_pushes _ _ _ _ Hbody) as [Ha _].
    revert Hbody Ha Hne. unfold loop_body.
    destruct (vget (min_t c) (node s)) as [mt_u|]; simpl; [|done].
    destruct (_ || _); [by intros [= <-]|]. destruct (_ >=? C); [by intros [= <-]|].
    destruct (vget2 _ _ _) as [cur|]; simpl; [|done].
    destruct (wait_time s >? cur); [by intros [= <-]|].
    intros _ [?|Ha] Hne; [done|].
    destruct (record_ans_cases g s (ans c)) as [[Hra _]|(Hra & Hn & Hlt)];
      [congruence|]. split_and!; [done..|congruence].
  - intros Heq mt_u cur Hm Hne Hwin Hcur Hw. revert Hbody. unfold loop_body.
    rewrite Hm. simpl. destruct (Z.eqb_spec mt_u INF); [done|]. simpl.
    destruct (Z.gtb_spec (total_time s) (mt_u + C)); [lia|].
    rewrite to_int_small by (unfold int_max, C in *; lia).
    destruct (Z.geb_spec (total_time s - mt_u) C); [lia|].
    rewrite Hcur. simpl. destruct (Z.gtb_spec (wait_time s) cur); [lia|].
    assert ((record_ans g s (ans c)).1 = total_time s) as Hra.
    { destruct (record_ans_cases g s (ans c)) as [[-> _]|(-> & _)]; done. }
    rewrite Hra. destruct (Z.gtb_spec (total_time s) (total_time s)); [lia|].
    destruct (relax_wait s _ _) as [c2|]; simpl; [|done]. by eauto.
Qed.

Lemma early_exit_after_answer_witness :
  loop_body tiny_graph (mkState 0 0 1) tiny_config = Some tiny_config' ∧
  ((ans tiny_config).1 < 0 → tiny_config' = tiny_config) ∧
  (ans tiny_config' ≠ ans tiny_config →
     1 = n tiny_graph ∧ lex_lt (0, 0) (ans tiny_config) ∧ ans tiny_config' = (0, 0)).
Proof.
  destruct (early_exit_after_answer tiny_graph (mkState 0 0 1) tiny_config tiny_config'
              eq_refl) as (H1 & H2 & _).
  split; [reflexivity|]. split; [exact H1|exact H2].
Defined.

(** C6: every state on the frontier satisfies
    [0 <= total_wait_time <= total_time]. *)
Theorem frontier_wait_le_time g n0 c0 c :
  init n0 = Some c0 → rtc (step g) c0 c →
  ∀ s, s ∈ pq c → 0 ≤ wait_time s ≤ total_time s.
Proof.
  intros Hc0 Hrtc. revert c Hrtc.
  apply (rtc_ind_r (λ c, ∀ s, s ∈ pq c → 0 ≤ wait_time s ≤ total_time s)).
  { destruct (init_pq _ _ Hc0) as [-> _]. intros s ->%list_elem_of_singleton. simpl. lia. }
  intros c c' _ (s & q' & Hpop & Hbody) IH s' Hs'.
  destruct (pq_pop_facts _ _ _ Hpop) as (Hs & Hsub & _).
  destruct (loop_body_pushes _ _ _ _ Hbody) as [_ Hpush].
  pose proof (IH s Hs) as IHs.
  destruct (Hpush s' Hs') as [Hin|[->|(v & _ & ->)]]; simpl in *;
    [by apply IH, Hsub|lia|lia].
Qed.

Lemma frontier_wait_le_time_witness :
  init 2 = Some init_two ∧ rtc (step single_edge_graph) init_two init_two ∧
  ∀ s, s ∈ pq init_two → 0 ≤ wait_time s ≤ total_time s.
Proof.
  split; [reflexivity|]. split; [apply rtc_refl|].
  exact (frontier_wait_le_time single_edge_graph 2 init_two init_two eq_refl
           (rtc_refl _ _)).
Defined.

Lemma source_lex_min edges : lex_min_arrival 1 edges 0 0.
Proof.
  split; [constructor|]. intros t w Hw. pose proof (walk_bounds _ _ _ _ Hw).
  unfold lex_le. simpl. lia.
Qed.

(** C7: when the source is the target (N = 1), the program prints (0, 0). *)
Theorem source_is_target edges :
  wf_input 1 edges →
  (∃ fuel, solve fuel 1 edges = Some (0, 0)) ∧
  ∀ out, prints 1 edges out → out = (0, 0).
Proof.
  intros Hwf. apply result_unique; [done|].
  intros c tc Hinv Hcm Hq.
  eapply final_answer; [done..|apply source_lex_min|unfold C; lia].
Qed.

Lemma source_is_target_witness :
  wf_input 1 [(1, 1)] ∧
  (∃ fuel, solve fuel 1 [(1, 1)] = Some (0, 0)) ∧
  ∀ out, prints 1 [(1, 1)] out → out = (0, 0).
Proof.
  assert (wf_input 1 [(1, 1)]) as Hwf.
  { unfold wf_input, C, int_max. simpl. split_and!; try lia.
    repeat constructor; simpl; lia. }
  split; [exact Hwf|]. exact (source_is_target [(1, 1)] Hwf).
Defined.

Lemma triangle_wf : wf_input 3 triangle.
Proof.
  unfold wf_input, triangle, C, int_max. simpl.
  split_and!; try lia. repeat constructor; simpl; lia.
Qed.

Lemma triangle_early x t w :
  walk triangle x t w → (t = 0 → x = 1) ∧ (t = 1 → x = 1 ∨ x = 2).
Proof.
  induction 1 as [|x t w Hw IH|x t w y Hw IH Hsel].
  - split; [done|lia].
  - pose proof (walk_bounds _ _ _ _ Hw). split; [lia|]. intros Ht.
    left. apply IH. lia.
  - pose proof (walk_bounds _ _ _ _ Hw). split; [lia|]. intros Ht.
    assert (t = 0) as -> by lia. destruct IH as [IH0 _].
    rewrite (IH0 eq_refl) in Hsel.
    vm_compute in Hsel. injection Hsel as <-. by right.
Qed.

Lemma triangle_lex_min : lex_min_arrival 3 triangle 2 0.
Proof.
  split.
  - apply (walk_move triangle 2 1 0 3); [|reflexivity].
    apply (walk_move triangle 1 0 0 2); [constructor|reflexivity].
  - intros t w Hw. pose proof (walk_bounds _ _ _ _ Hw).
    destruct (triangle_early _ _ _ Hw) as [H0 H1].
    unfold lex_le. simpl.
    destruct (decide (t = 0)) as [Ht|?]; [specialize (H0 Ht); lia|].
    destruct (decide (t = 1)) as [Ht|?]; [specialize (H1 Ht); lia|]. lia.
Qed.

(** C8: on the triangle (1,2), (2,3), (1,3) the edge list of node 1 is
    [2, 3], at time 0 it selects node 2, and the program prints (2, 0). *)
Theorem triangle_result :
  neighbors triangle 1 = [2; 3] ∧ select triangle 1 0 = Some 2 ∧
  solve 100 3 triangle = Some (2, 0) ∧
  ∀ out, prints 3 triangle out → out = (2, 0).
Proof.
  split_and!; [reflexivity|reflexivity|vm_compute; reflexivity|].
  apply (result_unique 3 triangle triangle_wf (2, 0)).
  intros c tc Hinv Hcm Hq.
  eapply final_answer; [done..|apply triangle_lex_min|unfold C; lia].
Qed.

(** C9: the search terminates.  Every iteration lowers the non-negative
    potential [2 * (sum of min_t + sum of min_w) + |pq|] (a push comes with a
    strict decrease of a table entry), so no run has more iterations than
    the initial potential, and the loop reaches the empty queue. *)
Theorem search_terminates n0 edges :
  wf_input n0 edges →
  ∃ g c0, build n0 edges = Some g ∧ init n0 = Some c0 ∧
    (∀ c c', rtc (step g) c0 c → step g c c' → 0 ≤ potential c' < potential c) ∧
    (∀ k c, nsteps (step g) k c0 c → Z.of_nat k ≤ potential c0) ∧
    (∃ fuel c, run g fuel c0 = Some c ∧ pq c = []).
Proof.
  intros Hwf.
  destruct (build_spec n0 edges Hwf) as (g & Hg & _).
  destruct (init_spec n0 edges Hwf) as (c0 & Hc0 & Hinv0 & Hcm0).
  exists g, c0. split_and!; [done..| | |].
  - intros c c' Hrtc Hstep.
    destruct (reachable_inv n0 edges g c0 Hwf Hg Hc0 c Hrtc) as [[tc Hinv] Hcm].
    destruct (step_preserves _ _ _ Hwf Hg _ _ _ Hinv Hcm Hstep) as ([tc' Hinv'] & _ & ?).
    pose proof (potential_nonneg _ _ _ _ Hinv'). lia.
  - intros k c Hn. eapply nsteps_potential; eauto.
  - pose proof (potential_nonneg _ _ _ _ Hinv0) as Hpot.
    destruct (run_terminates n0 edges g Hwf Hg (S (Z.to_nat (potential c0))) c0 0 Hinv0)
      as (c & Hrun & Hq & _); [lia|]. by eauto.
Qed.

Lemma search_terminates_witness :
  wf_input 2 single_edge ∧
  ∃ g c0, build 2 single_edge = Some g ∧ init 2 = Some c0 ∧
    (∀ c c', rtc (step g) c0 c → step g c c' → 0 ≤ potential c' < potential c) ∧
    (∀ k c, nsteps (step g) k c0 c → Z.of_nat k ≤ potential c0) ∧
    (∃ fuel c, run g fuel c0 = Some c ∧ pq c = []).
Proof.
  split; [apply single_edge_wf|].
  exact (search_terminates 2 single_edge single_edge_wf).
Defined.

(** C10: in every configuration the search reaches on a well-formed input,
    the tables have N+1 rows of exactly C slots, the state popped next has a
    node in 1..N and a time [t] with [min_t[u] <= t < min_t[u] + C], and the
    iteration for it completes without an access outside a vector. *)
Theorem table_accesses_in_bounds n0 edges g c0 c s q' :
  wf_input n0 edges → build n0 edges = Some g → init n0 = Some c0 →
  rtc (step g) c0 c → pq_pop (pq c) s q' →
  tables_shape n0 c ∧ 1 ≤ node s ≤ n0 ∧
  (∃ m, vget (min_t c) (node s) = Some m ∧ m ≠ INF ∧
        m ≤ total_time s < m + C ∧
        to_int (total_time s - m) = total_time s - m) ∧
  is_Some (loop_body g s (set_pq q' c)) ∧ ¬ step_ub g c.
Proof.
  intros Hwf Hg Hc0 Hrtc Hpop.
  destruct (reachable_inv n0 edges g c0 Hwf Hg Hc0 c Hrtc) as [[tc Hinv] _].
  destruct (pq_pop_facts _ _ _ Hpop) as (Hs & _).
  destruct (inv_pq _ _ _ _ Hinv s Hs) as (Hu & _ & _ & _ & m & x & Hm & Hne & Hwin & _).
  destruct (loop_body_spec _ _ _ Hwf Hg _ _ _ _ Hinv Hpop)
    as (_ & _ & c' & _ & _ & _ & Hbody & _).
  split_and!; [by destruct Hinv|lia|lia| |by eauto|].
  - exists m. split_and!; try done; try lia.
    apply to_int_small. unfold int_max, C in *. lia.
  - intros (s1 & q1 & Hpop1 & Hnone).
    destruct (loop_body_spec _ _ _ Hwf Hg _ _ _ _ Hinv Hpop1)
      as (_ & _ & c1 & _ & _ & _ & Hbody1 & _). congruence.
Qed.

Lemma table_accesses_in_bounds_witness :
  wf_input 2 single_edge ∧ build 2 single_edge = Some single_edge_graph ∧
  init 2 = Some init_two ∧ rtc (step single_edge_graph) init_two init_two ∧
  pq_pop (pq init_two) (mkState 0 0 1) [] ∧
  is_Some (loop_body single_edge_graph (mkState 0 0 1) (set_pq [] init_two)).
Proof.
  assert (pq_pop (pq init_two) (mkState 0 0 1) []) as Hpop.
  { split; [by exists [], []|]. repeat constructor. }
  destruct (table_accesses_in_bounds 2 single_edge single_edge_graph init_two init_two
              (mkState 0 0 1) [] single_edge_wf eq_refl eq_refl (rtc_refl _ _) Hpop)
    as (_ & _ & _ & Hsome & _).
  split; [apply single_edge_wf|]. split; [reflexivity|]. split; [reflexivity|].
  split; [apply rtc_refl|]. split; [exact Hpop|exact Hsome].
Defined.

(** * Further properties of the code *)

(** ** The comparison of states *)

(** [State::operator>] is a strict weak order, as [priority_queue] needs of
    its comparator: irreflexive, transitive, and with a transitive
    incomparability (no state is greater than an equal one). *)
Theorem State_gt_strict_weak a b c :
  State_gt a a = false ∧
  (State_gt a b = true → State_gt b a = false) ∧
  (State_gt a b = true → State_gt b c = true → State_gt a c = true) ∧
  (State_gt a b = false → State_gt b c = false → State_gt a c = false) ∧
  (State_gt a b = false → State_gt b a = false →
   total_time a = total_time b ∧ wait_time a = wait_time b).
Proof.
  unfold State_gt. split_and!; zb; intros; try done; lia.
Qed.

Lemma State_gt_strict_weak_witness :
  State_gt (mkState 2 0 3) (mkState 1 1 1) = true ∧
  State_gt (mkState 1 1 1) (mkState 1 0 2) = true ∧
  State_gt (mkState 2 0 3) (mkState 1 0 2) = true.
Proof.
  split; [reflexivity|]. split; [reflexivity|].
  exact (proj1 (proj2 (proj2 (State_gt_strict_weak
           (mkState 2 0 3) (mkState 1 1 1) (mkState 1 0 2)))) eq_refl eq_refl).
Defined.

(** ** The order of the pops *)

Lemma pq_pop_min q s q' x :
  pq_pop q s q' → x ∈ q →
  lex_le (total_time s, wait_time s) (total_time x, wait_time x).
Proof.
  intros [_ Hmin] Hx. rewrite Forall_forall in Hmin. by apply State_gt_false, Hmin.
Qed.

Section Order.
Variables (g : graph) (n0 : Z) (c0 : config).
Hypothesis Hc0 : init n0 = Some c0.

(** The queue holds at most two consecutive time layers, the lower one being
    the layer of the next pop. *)
Lemma reachable_layers c :
  rtc (step g) c0 c →
  ∃ tc, ∀ s, s ∈ pq c → tc ≤ total_time s ≤ tc + 1.
Proof.
  revert c. apply (rtc_ind_r (λ c, ∃ tc, ∀ s, s ∈ pq c → tc ≤ total_time s ≤ tc + 1)).
  { exists 0. destruct (init_pq _ _ Hc0) as [-> _].
    intros s ->%list_elem_of_singleton. simpl. lia. }
  intros c c' _ (s & q' & Hpop & Hbody) [tc Htc].
  destruct (pq_pop_facts _ _ _ Hpop) as (Hs & Hsub & _ & Hmin & _).
  destruct (loop_body_pushes _ _ _ _ Hbody) as [_ Hpush]. simpl in Hpush.
  pose proof (Htc s Hs) as Hts.
  exists (total_time s). intros s' Hs'.
  destruct (Hpush s' Hs') as [Hin|[->|(v & _ & ->)]]; simpl; [|lia|lia].
  pose proof (Htc s' (Hsub _ Hin)). pose proof (Hmin s' (Hsub _ Hin)). lia.
Qed.

(** Once an answer is recorded, no queued state is lexicographically below
    it. *)
Lemma reachable_ans_least c :
  rtc (step g) c0 c →
  ans c = (INF, INF) ∨
  ∀ s, s ∈ pq c → lex_le (ans c) (total_time s, wait_time s).
Proof.
  revert c. apply (rtc_ind_r (λ c, ans c = (INF, INF) ∨
    ∀ s, s ∈ pq c → lex_le (ans c) (total_time s, wait_time s))).
  { left. by destruct (init_pq _ _ Hc0) as [_ ->]. }
  intros c c' _ (s & q' & Hpop & Hbody) IH.
  destruct (pq_pop_facts _ _ _ Hpop) as (Hs & Hsub & _).
  destruct (loop_body_pushes _ _ _ _ Hbody) as [Ha Hpush]. simpl in Ha, Hpush.
  assert (∀ s', s' ∈ pq c' →
            lex_le (total_time s, wait_time s) (total_time s', wait_time s')) as Hge.
  { intros s' Hs'. destruct (Hpush s' Hs') as [Hin|[->|(v & _ & ->)]].
    - eapply pq_pop_min; [done|by apply Hsub].
    - unfold lex_le. simpl. lia.
    - unfold lex_le. simpl. lia. }
  destruct (record_ans_cases g s (ans c)) as [[Hra _]|(Hra & _ & Hlt)].
  - assert (ans c' = ans c) as -> by (destruct Ha; congruence).
    destruct IH as [?|IH]; [by left|]. right. intros s' Hs'.
    eapply lex_le_trans; [exact (IH s Hs)|by apply Hge].
  - destruct Ha as [Ha|Ha]; rewrite Ha.
    + destruct IH as [?|IH]; [by left|]. right. intros s' Hs'.
      eapply lex_le_trans; [exact (IH s Hs)|by apply Hge].
    + rewrite Hra. right. exact Hge.
Qed.
End Order.

(** The frontier never spans more than two consecutive time layers, and the
    states left or pushed by an iteration are never earlier than the state it
    popped: the pops come in non-decreasing order of time. *)
Theorem frontier_two_layers g n0 c0 c :
  init n0 = Some c0 → rtc (step g) c0 c →
  (∀ s1 s2, s1 ∈ pq c → s2 ∈ pq c → total_time s1 ≤ total_time s2 + 1) ∧
  (∀ s q' c', pq_pop (pq c) s q' → loop_body g s (set_pq q' c) = Some c' →
     ∀ s', s' ∈ pq c' → total_time s ≤ total_time s' ≤ total_time s + 1).
Proof.
  intros Hc0 Hrtc. destruct (reachable_layers g n0 c0 Hc0 c Hrtc) as [tc Htc]. split.
  - intros s1 s2 H1 H2. pose proof (Htc s1 H1). pose proof (Htc s2 H2). lia.
  - intros s q' c' Hpop Hbody s' Hs'.
    destruct (pq_pop_facts _ _ _ Hpop) as (Hs & Hsub & _ & Hmin & _).
    destruct (loop_body_pushes _ _ _ _ Hbody) as [_ Hpush]. simpl in Hpush.
    destruct (Hpush s' Hs') as [Hin|[->|(v & _ & ->)]]; simpl; [|lia|lia].
    pose proof (Htc s Hs). pose proof (Htc s' (Hsub _ Hin)).
    pose proof (Hmin s' (Hsub _ Hin)). lia.
Qed.

Lemma frontier_two_layers_witness :
  init 2 = Some init_two ∧ rtc (step single_edge_graph) init_two init_two ∧
  ∀ s1 s2, s1 ∈ pq init_two → s2 ∈ pq init_two → total_time s1 ≤ total_time s2 + 1.
Proof.
  split; [reflexivity|]. split; [apply rtc_refl|].
  exact (proj1 (frontier_two_layers single_edge_graph 2 init_two init_two eq_refl
                  (rtc_refl _ _))).
Defined.

(** The answer is written at most once: after a target state has been
    recorded, no later iteration changes [ans]. *)
Theorem answer_written_once g n0 c0 c c' :
  init n0 = Some c0 → rtc (step g) c0 c → step g c c' →
  ans c ≠ (INF, INF) → ans c' = ans c.
Proof.
  intros Hc0 Hrtc (s & q' & Hpop & Hbody) Hne.
  destruct (reachable_ans_least g n0 c0 Hc0 c Hrtc) as [?|Hleast]; [done|].
  destruct (pq_pop_facts _ _ _ Hpop) as (Hs & _).
  destruct (loop_body_pushes _ _ _ _ Hbody) as [[Ha|Ha] _]; simpl in Ha; [done|].
  rewrite Ha. destruct (record_ans_cases g s (ans c)) as [[Hra _]|(_ & _ & Hlt)]; [done|].
  specialize (Hleast s Hs). unfold lex_le, lex_lt in *. simpl in *. lia.
Qed.

Lemma one_node_first_step : step tiny_graph init_one after_one.
Proof.
  exists (mkState 0 0 1), []. split.
  - split; [by exists [], []|]. repeat constructor.
  - vm_compute. reflexivity.
Qed.

Lemma one_node_second_step : step tiny_graph after_one after_two.
Proof.
  exists (mkState 1 1 1), []. split.
  - split; [by exists [], []|]. repeat constructor.
  - vm_compute. reflexivity.
Qed.

Lemma answer_written_once_witness :
  init 1 = Some init_one ∧ rtc (step tiny_graph) init_one after_one ∧
  step tiny_graph after_one after_two ∧ ans after_one ≠ (INF, INF) ∧
  ans after_two = ans after_one.
Proof.
  assert (rtc (step tiny_graph) init_one after_one) as Hrtc.
  { apply rtc_once, one_node_first_step. }
  assert (ans after_one ≠ (INF, INF)) as Hne.
  { simpl. unfold INF. intros [= ?]. }
  split; [reflexivity|]. split; [exact Hrtc|]. split; [apply one_node_second_step|].
  split; [exact Hne|].
  exact (answer_written_once tiny_graph 1 init_one after_one after_two eq_refl Hrtc
           one_node_second_step Hne).
Defined.

(** ** The tables along a run *)

Lemma init_finite n0 c0 :
  init n0 = Some c0 →
  (∀ v m, vget (min_t c0) v = Some m → m ≠ INF → v = 1 ∧ m = 0) ∧
  (∀ v d x, vget2 (min_w c0) v d = Some x → x ≠ INF → v = 1 ∧ d = 0 ∧ x = 0).
Proof.
  unfold init.
  set (mt0 := replicate (Z.to_nat (n0 + 1)) INF).
  set (mw0 := replicate (Z.to_nat (n0 + 1)) (replicate (Z.to_nat C) INF)).
  destruct (vset mt0 1 0) as [mt|] eqn:Hmt; [|done].
  destruct (vset2 mw0 1 0 0) as [mw|] eqn:Hmw; [|done].
  intros [= <-]. cbn [min_t min_w]. split.
  - intros v m. rewrite (vget_vset _ _ _ _ v Hmt). case_decide; [naive_solver|].
    by intros ->%vget_replicate.
  - intros v d x. rewrite (vget2_vset2 _ _ _ _ _ v d Hmw). case_decide; [naive_solver|].
    intros (row & ->%vget_replicate & ->%vget_replicate)%vget2_Some. done.
Qed.

Section Tables.
Variables (n0 : Z) (edges : list (Z * Z)) (g : graph) (c0 : config).
Hypothesis Hwf : wf_input n0 edges.
Hypothesis Hg : build n0 edges = Some g.
Hypothesis Hc0 : init n0 = Some c0.

Lemma step_tables c tc c' :
  inv n0 edges c tc → step g c c' →
  (∃ tc', inv n0 edges c' tc') ∧
  (∀ v m, vget (min_t c) v = Some m → m ≠ INF → vget (min_t c') v = Some m) ∧
  (∀ v d x, vget2 (min_w c) v d = Some x →
     ∃ x', vget2 (min_w c') v d = Some x' ∧ x' ≤ x) ∧
  (∀ v m d x, vget (min_t c') v = Some m → m ≠ INF →
     vget2 (min_w c') v d = Some x → x ≠ INF →
     (vget (min_t c) v = Some m ∧ vget2 (min_w c) v d = Some x) ∨
     mkState (m + d) x v ∈ pq c').
Proof.
  intros Hinv (s & q' & Hpop & Hbody).
  destruct (loop_body_spec _ _ _ Hwf Hg _ _ _ _ Hinv Hpop)
    as (m & x & c'' & _ & _ & _ & Hbody' & Hout & Hinv' & _).
  assert (c'' = c') as -> by congruence. split; [by eauto|].
  assert (∀ v d y, vget2 (min_w c) v d = Some y →
            ∃ y', vget2 (min_w c) v d = Some y' ∧ y' ≤ y) as Hsame.
  { intros v d y Hy. exists y. split; [done|lia]. }
  destruct Hout as [[_ ->]|[_ [[_ ->]|(_ & c2 & He2 & He3 & _)]]]; simpl.
  - split_and!; [done..|]. intros. by left.
  - split_and!; [done..|]. intros. by left.
  - pose proof (extends_trans _ _ _ He2 He3) as Hext.
    split_and!.
    + exact (ext_mt _ _ Hext).
    + exact (ext_mw _ _ Hext).
    + exact (ext_new _ _ Hext).
Qed.

Lemma reachable_tables_sound c :
  rtc (step g) c0 c →
  ∀ v m d x, vget (min_t c) v = Some m → m ≠ INF →
    vget2 (min_w c) v d = Some x → x ≠ INF → walk edges v (m + d) x.
Proof.
  intros Hrtc. pose proof (reachable_inv n0 edges g c0 Hwf Hg Hc0) as Hreach.
  revert c Hrtc. apply (rtc_ind_r (λ c, ∀ v m d x, vget (min_t c) v = Some m → m ≠ INF →
    vget2 (min_w c) v d = Some x → x ≠ INF → walk edges v (m + d) x)).
  { destruct (init_finite _ _ Hc0) as [Hmt Hmw].
    intros v m d x Hm Hne Hx Hxne.
    destruct (Hmt v m Hm Hne) as [-> ->]. destruct (Hmw 1 d x Hx Hxne) as (_ & -> & ->).
    constructor. }
  intros c c' Hrtc Hstep IH v m d x Hm Hne Hx Hxne.
  destruct (Hreach c Hrtc) as [[tc Hinv] _].
  destruct (step_tables _ _ _ Hinv Hstep) as ([tc' Hinv'] & _ & _ & Hnew).
  destruct (Hnew v m d x Hm Hne Hx Hxne) as [[Hm0 Hx0]|Hin]; [by eapply IH|].
  by destruct (inv_pq _ _ _ _ Hinv' _ Hin) as (_ & _ & _ & ? & _).
Qed.

Lemma reachable_tables_improve c c' :
  rtc (step g) c0 c → rtc (step g) c c' →
  (∀ v m, vget (min_t c) v = Some m → m ≠ INF → vget (min_t c') v = Some m) ∧
  (∀ v d x, vget2 (min_w c) v d = Some x →
     ∃ x', vget2 (min_w c') v d = Some x' ∧ x' ≤ x).
Proof.
  intros Hrtc. pose proof (reachable_inv n0 edges g c0 Hwf Hg Hc0) as Hreach.
  revert c'. apply (rtc_ind_r (λ c',
    (∀ v m, vget (min_t c) v = Some m → m ≠ INF → vget (min_t c') v = Some m) ∧
    (∀ v d x, vget2 (min_w c) v d = Some x →
       ∃ x', vget2 (min_w c') v d = Some x' ∧ x' ≤ x))).
  { split; [done|]. intros v d x Hx. exists x. split; [done|lia]. }
  intros c1 c2 Hrtc1 Hstep [IHt IHw].
  assert (rtc (step g) c0 c1) as Hrtc01 by (by etrans).
  destruct (Hreach c1 Hrtc01) as [[tc Hinv] _].
  destruct (step_tables _ _ _ Hinv Hstep) as (_ & Ht & Hw & _). split.
  - intros v m Hm Hne. apply Ht; [by apply IHt|done].
  - intros v d x Hx. destruct (IHw v d x Hx) as (x1 & Hx1 & ?).
    destruct (Hw v d x1 Hx1) as (x2 & Hx2 & ?). exists x2. split; [done|lia].
Qed.
End Tables.

(** Along a run on a well-formed input the tables only improve: a minimum
    time, once set, is never changed again (so the record of node 1 stays
    0), and no wait entry ever increases. *)
Theorem tables_only_improve n0 edges g c0 c c' :
  wf_input n0 edges → build n0 edges = Some g → init n0 = Some c0 →
  rtc (step g) c0 c → rtc (step g) c c' →
  (∀ v m, vget (min_t c) v = Some m → m ≠ INF → vget (min_t c') v = Some m) ∧
  (∀ v d x, vget2 (min_w c) v d = Some x →
     ∃ x', vget2 (min_w c') v d = Some x' ∧ x' ≤ x) ∧
  vget (min_t c') 1 = Some 0 ∧ vget2 (min_w c') 1 0 = Some 0.
Proof.
  intros Hwf Hg Hc0 Hrtc Hrtc'.
  destruct (reachable_tables_improve n0 edges g c0 Hwf Hg Hc0 c c' Hrtc Hrtc') as [Ht Hw].
  assert (rtc (step g) c0 c') as Hrtc0 by (by etrans).
  destruct (reachable_inv n0 edges g c0 Hwf Hg Hc0 c' Hrtc0) as [[tc Hinv] _].
  destruct (inv_src _ _ _ _ Hinv) as (Hm1 & x & Hx & Hx0).
  split_and!; [done..|].
  destruct (inv_mw _ _ _ _ Hinv 1 0 x Hx) as [? _]; [unfold INF; lia|].
  rewrite Hx. f_equal. lia.
Qed.

Lemma tables_only_improve_witness :
  wf_input 1 [] ∧ build 1 [] = Some tiny_graph ∧ init 1 = Some init_one ∧
  rtc (step tiny_graph) init_one after_one ∧
  rtc (step tiny_graph) after_one after_two ∧
  vget (min_t after_two) 1 = Some 0 ∧ vget2 (min_w after_two) 1 0 = Some 0.
Proof.
  assert (wf_input 1 []) as Hwf.
  { unfold wf_input, C, int_max. simpl. split_and!; try lia. constructor. }
  assert (rtc (step tiny_graph) init_one after_one) as H1.
  { apply rtc_once, one_node_first_step. }
  assert (rtc (step tiny_graph) after_one after_two) as H2.
  { apply rtc_once, one_node_second_step. }
  split; [exact Hwf|]. split; [reflexivity|]. split; [reflexivity|].
  split; [exact H1|]. split; [exact H2|].
  exact (proj2 (proj2 (tables_only_improve 1 [] tiny_graph init_one after_one after_two
                         Hwf eq_refl eq_refl H1 H2))).
Defined.

(** Every finite table entry is realised by a walk: [min_t[v]] is the time
    of a walk that ends at [v], and [min_w[v][d]] is the wait of a walk that
    is at [v] at time [min_t[v] + d].  A node that no walk reaches keeps
    [INF]. *)
Theorem tables_realised n0 edges g c0 c :
  wf_input n0 edges → build n0 edges = Some g → init n0 = Some c0 →
  rtc (step g) c0 c →
  (∀ v m, vget (min_t c) v = Some m → m ≠ INF → ∃ w, walk edges v m w) ∧
  (∀ v m d x, vget (min_t c) v = Some m → vget2 (min_w c) v d = Some x → x ≠ INF →
     m ≠ INF ∧ walk edges v (m + d) x) ∧
  (∀ v m, (∀ t w, ¬ walk edges v t w) → vget (min_t c) v = Some m → m = INF).
Proof.
  intros Hwf Hg Hc0 Hrtc.
  destruct (reachable_inv n0 edges g c0 Hwf Hg Hc0 c Hrtc) as [[tc Hinv] _].
  pose proof (reachable_tables_sound n0 edges g c0 Hwf Hg Hc0 c Hrtc) as Hsound.
  split_and!.
  - intros v m Hm Hne. by destruct (inv_mt _ _ _ _ Hinv v m Hm Hne) as (_ & _ & _ & ?).
  - intros v m d x Hm Hx Hxne.
    destruct (inv_mw _ _ _ _ Hinv v d x Hx Hxne) as (_ & m' & Hm' & Hne').
    assert (m' = m) as -> by congruence. split; [done|]. by eapply Hsound.
  - intros v m Hno Hm. destruct (decide (m = INF)) as [|Hne]; [done|].
    destruct (inv_mt _ _ _ _ Hinv v m Hm Hne) as (_ & _ & _ & w & Hw).
    by apply Hno in Hw.
Qed.

Lemma tables_realised_witness :
  wf_input 2 single_edge ∧ build 2 single_edge = Some single_edge_graph ∧
  init 2 = Some init_two ∧ rtc (step single_edge_graph) init_two init_two ∧
  ∃ w, walk single_edge 1 0 w.
Proof.
  split; [apply single_edge_wf|]. split; [reflexivity|]. split; [reflexivity|].
  split; [apply rtc_refl|].
  refine (proj1 (tables_realised 2 single_edge single_edge_graph init_two init_two
                   single_edge_wf eq_refl eq_refl (rtc_refl _ _)) 1 0 eq_refl _).
  unfold INF. lia.
Defined.

(** On a well-formed input every number the search holds is small: queued
    times and waits, finite minimum times and finite wait entries are
    non-negative and below [(N + 1) * C], which is at most 2^31 - 1; no
    [long long] addition of the source overflows. *)
Theorem values_bounded n0 edges g c0 c :
  wf_input n0 edges → build n0 edges = Some g → init n0 = Some c0 →
  rtc (step g) c0 c →
  (n0 + 1) * C ≤ int_max ∧
  (∀ s, s ∈ pq c → 0 ≤ wait_time s ≤ total_time s ∧ total_time s < (n0 + 1) * C) ∧
  (∀ v m, vget (min_t c) v = Some m → m ≠ INF → 0 ≤ m ≤ n0 * C) ∧
  (∀ v d x, vget2 (min_w c) v d = Some x → x ≠ INF → 0 ≤ x < (n0 + 1) * C).
Proof.
  intros Hwf Hg Hc0 Hrtc.
  destruct (reachable_inv n0 edges g c0 Hwf Hg Hc0 c Hrtc) as [[tc Hinv] _].
  pose proof (reachable_tables_sound n0 edges g c0 Hwf Hg Hc0 c Hrtc) as Hsound.
  pose proof (inv_shape _ _ _ _ Hinv) as (Hlen & _ & Hrows).
  pose proof (finite_count_bounds (min_t c)) as Hk.
  assert (∀ v m, vget (min_t c) v = Some m → m ≠ INF → 0 ≤ m ≤ n0 * C) as Hmt.
  { intros v m Hm Hne. destruct (inv_mt _ _ _ _ Hinv v m Hm Hne) as (_ & ? & ? & _).
    unfold C in *. lia. }
  split_and!; [by destruct Hwf as (_ & ? & _)| |done|].
  - intros s Hs.
    destruct (inv_pq _ _ _ _ Hinv s Hs) as (_ & ? & _ & _ & m & x & Hm & Hne & ? & _).
    specialize (Hmt _ _ Hm Hne). unfold C in *. lia.
  - intros v d x Hx Hxne.
    destruct (inv_mw _ _ _ _ Hinv v d x Hx Hxne) as (? & m & Hm & Hne).
    pose proof (walk_bounds _ _ _ _ (Hsound v m d x Hm Hne Hx Hxne)).
    specialize (Hmt _ _ Hm Hne).
    apply vget2_Some in Hx as (row & Hrow & Hd%vget_range).
    rewrite (Hrows _ _ Hrow) in Hd. unfold C in *. lia.
Qed.

Lemma values_bounded_witness :
  wf_input 2 single_edge ∧ build 2 single_edge = Some single_edge_graph ∧
  init 2 = Some init_two ∧ rtc (step single_edge_graph) init_two init_two ∧
  (2 + 1) * C ≤ int_max.
Proof.
  split; [apply single_edge_wf|]. split; [reflexivity|]. split; [reflexivity|].
  split; [apply rtc_refl|].
  exact (proj1 (values_bounded 2 single_edge single_edge_graph init_two init_two
                  single_edge_wf eq_refl eq_refl (rtc_refl _ _))).
Defined.

(** ** What the program can print *)

(** Whatever the window hides, the printed pair is never wrong in the other
    direction: it is the sentinel or the (arrival time, wait) of a walk from
    node 1 to node N, hence never below the lexicographic minimum. *)
Theorem printed_pair_realised n0 edges out :
  wf_input n0 edges → prints n0 edges out →
  out = (INF, INF) ∨
  (walk edges n0 out.1 out.2 ∧
   ∀ T W, lex_min_arrival n0 edges T W → lex_le (T, W) out).
Proof.
  intros Hwf (c & tc & Hinv & _ & _ & <-)%prints_final; [|done].
  destruct (inv_ans _ _ _ _ Hinv) as [?|Hw]; [by left|right].
  split; [done|]. intros T W [_ Hmin]. destruct (ans c) as [a1 a2]. by apply Hmin.
Qed.

Lemma printed_pair_realised_witness :
  wf_input 2 single_edge ∧ prints 2 single_edge (1, 0) ∧
  ((1, 0) = (INF, INF) ∨
   (walk single_edge 2 1 0 ∧
    ∀ T W, lex_min_arrival 2 single_edge T W → lex_le (T, W) (1, 0))).
Proof.
  assert (prints 2 single_edge (1, 0)) as Hp.
  { apply (solve_prints 100). vm_compute. reflexivity. }
  split; [apply single_edge_wf|]. split; [exact Hp|].
  exact (printed_pair_realised 2 single_edge (1, 0) single_edge_wf Hp).
Defined.

Lemma walk_connected edges x t w : walk edges x t w → rtc (adjacent edges) 1 x.
Proof.
  induction 1 as [| |x t w y _ IH Hsel]; [done..|].
  eapply rtc_r; [exact IH|]. unfold adjacent. unfold select in Hsel.
  destruct (_ =? 0); [done|]. by eapply list_elem_of_lookup_2.
Qed.

(** When node N is not joined to node 1 by a path of input edges (in
    particular when node 1 has no edge and N > 1), the program prints the
    sentinel. *)
Theorem disconnected_prints_sentinel n0 edges :
  wf_input n0 edges → ¬ rtc (adjacent edges) 1 n0 →
  (∃ fuel, solve fuel n0 edges = Some (INF, INF)) ∧
  ∀ out, prints n0 edges out → out = (INF, INF).
Proof.
  intros Hwf Hno. apply result_unique; [done|].
  intros c tc Hinv _ _. destruct (inv_ans _ _ _ _ Hinv) as [?|Hw]; [done|].
  by apply walk_connected in Hw.
Qed.

Lemma disconnected_prints_sentinel_witness :
  wf_input 2 [] ∧ ¬ rtc (adjacent []) 1 2 ∧
  (∃ fuel, solve fuel 2 [] = Some (INF, INF)) ∧
  ∀ out, prints 2 [] out → out = (INF, INF).
Proof.
  assert (wf_input 2 []) as Hwf.
  { unfold wf_input, C, int_max. simpl. split_and!; try lia. constructor. }
  assert (¬ rtc (adjacent []) 1 2) as Hno.
  { intros H. inversion H as [|? y ? Hadj]; subst.
    unfold adjacent in Hadj. simpl in Hadj. by apply elem_of_nil in Hadj. }
  split; [exact Hwf|]. split; [exact Hno|].
  exact (disconnected_prints_sentinel 2 [] Hwf Hno).
Defined.

(** ** The adjacency vectors *)

Section Adjacency.
Implicit Types (a : list (list (Z * Z))) (edges : list (Z * Z)).

Lemma number_from_length row : ∀ k, length (number_from k row) = length row.
Proof. induction row as [|p r IH]; intros k; simpl; [done|]. by rewrite IH. Qed.

Lemma number_from_fst nb : ∀ k, (number_from k (pairs_of nb)).*1 = nb.
Proof.
  induction nb as [|b nb IH]; intros k; [done|].
  cbn [pairs_of fmap list_fmap number_from fst]. f_equal. apply IH.
Qed.

Lemma number_from_lookup row : ∀ k (i : nat) p,
  number_from k row !! i = Some p → p.2 = k + Z.of_nat i.
Proof.
  induction row as [|q r IH]; intros k i p Hp; [done|].
  destruct i as [|i]; simpl in Hp.
  - injection Hp as <-. simpl. lia.
  - rewrite (IH _ _ _ Hp). lia.
Qed.

Lemma push_edge_inv a e a' :
  push_edge a e = Some a' →
  (0 ≤ e.1 < Z.of_nat (length a)) ∧ (0 ≤ e.2 < Z.of_nat (length a)) ∧
  length a' = length a.
Proof.
  unfold push_edge. intros H.
  destruct (vget a e.1) as [ru|] eqn:Hru; simpl in H; [|done].
  destruct (vset a e.1 _) as [a1|] eqn:Ha1; simpl in H; [|done].
  destruct (vget a1 e.2) as [rv|] eqn:Hrv; simpl in H; [|done].
  pose proof (vget_range _ _ _ Hru). pose proof (vget_range _ _ _ Hrv).
  pose proof (vset_length _ _ _ _ Ha1) as Hl1. pose proof (vset_length _ _ _ _ H) as Hl2.
  split_and!; lia.
Qed.

Lemma read_edges_inv edges : ∀ a a',
  read_edges a edges = Some a' →
  Forall (λ e, (0 ≤ e.1 < Z.of_nat (length a)) ∧ (0 ≤ e.2 < Z.of_nat (length a))) edges ∧
  length a' = length a.
Proof.
  induction edges as [|e es IH]; intros a a' H; simpl in H.
  - injection H as <-. split; [constructor|done].
  - destruct (push_edge a e) as [a1|] eqn:Hp; simpl in H; [|done].
    destruct (push_edge_inv _ _ _ Hp) as (? & ? & Hl).
    destruct (IH _ _ H) as [Hall Hl']. rewrite Hl in Hall. split; [|congruence].
    constructor; [done|]. eapply Forall_impl; [exact Hall|]. done.
Qed.

Lemma sumZ_fmap_add {A} (f h : A → Z) (l : list A) :
  sumZ ((λ x, f x + h x) <$> l) = sumZ (f <$> l) + sumZ (h <$> l).
Proof.
  induction l as [|x l IH]; [done|]. rewrite !fmap_cons. cbn [sumZ]. rewrite IH. lia.
Qed.

Lemma sumZ_indicator_out (b : Z) l :
  b ∉ l → sumZ ((λ x, if b =? x then 1 else 0) <$> l) = 0.
Proof.
  induction l as [|x l IH]; [done|]. intros [? ?]%not_elem_of_cons.
  rewrite fmap_cons. cbn [sumZ].
  destruct (Z.eqb_spec b x); [done|]. rewrite IH by done. lia.
Qed.

Lemma sumZ_indicator (b : Z) l :
  NoDup l → b ∈ l → sumZ ((λ x, if b =? x then 1 else 0) <$> l) = 1.
Proof.
  induction 1 as [|x l Hx Hnd IH]; [by intros ?%elem_of_nil|].
  intros Hin. rewrite fmap_cons. cbn [sumZ].
  destruct (Z.eqb_spec b x) as [->|Hne].
  - rewrite sumZ_indicator_out by done. lia.
  - apply elem_of_cons in Hin as [?|Hin]; [done|]. rewrite IH by done. lia.
Qed.

Lemma neighbors_one_length e x :
  Z.of_nat (length (neighbors [e] x)) =
  (if e.1 =? x then 1 else 0) + (if e.2 =? x then 1 else 0).
Proof. simpl. destruct (e.1 =? x), (e.2 =? x); simpl; lia. Qed.

(** Every edge is counted at both of its ends. *)
Lemma neighbors_total edges l :
  NoDup l → Forall (λ e, e.1 ∈ l ∧ e.2 ∈ l) edges →
  sumZ ((λ x, Z.of_nat (length (neighbors edges x))) <$> l) =
  2 * Z.of_nat (length edges).
Proof.
  intros Hnd. induction 1 as [|e es [H1 H2] _ IH].
  - clear Hnd. induction l as [|x l IHl]; [done|].
    rewrite fmap_cons. cbn [sumZ]. rewrite IHl. simpl. lia.
  - erewrite (list_fmap_ext _ (λ x, ((if e.1 =? x then 1 else 0) +
                (if e.2 =? x then 1 else 0)) + Z.of_nat (length (neighbors es x)))).
    2: { intros i x _. rewrite neighbors_cons, length_app, Nat2Z.inj_add.
         by rewrite neighbors_one_length. }
    rewrite sumZ_fmap_add, sumZ_fmap_add, IH.
    rewrite !sumZ_indicator by done. simpl length. lia.
Qed.

Lemma neighbors_symmetric edges x y :
  length (filter (λ v, v = y) (neighbors edges x)) =
  length (filter (λ v, v = x) (neighbors edges y)).
Proof.
  induction edges as [|e es IH]; [done|].
  rewrite (neighbors_cons e es x), (neighbors_cons e es y).
  rewrite !filter_app, !length_app, IH. f_equal.
  simpl. destruct (Z.eqb_spec e.1 x), (Z.eqb_spec e.2 x),
    (Z.eqb_spec e.1 y), (Z.eqb_spec e.2 y); simpl;
    rewrite ?filter_cons, ?filter_nil; repeat case_decide; simpl; congruence.
Qed.

Lemma vector_by_lookup (l : list Z) (f : Z → Z) :
  (∀ x, 0 ≤ x < Z.of_nat (length l) → vget l x = Some (f x)) →
  l = f <$> seqZ 0 (Z.of_nat (length l)).
Proof.
  intros H. apply list_eq. intros i. rewrite list_lookup_fmap.
  destruct (decide (i < length l)%nat) as [Hi|Hi].
  - rewrite lookup_seqZ_lt by lia. simpl.
    assert (vget l (Z.of_nat i) = Some (f (Z.of_nat i))) as [_ Hl]%vget_Some
      by (apply H; lia).
    by rewrite Nat2Z.id in Hl.
  - rewrite lookup_ge_None_2 by lia. by rewrite lookup_seqZ_ge by lia.
Qed.

Lemma build_lengths n0 edges g :
  0 ≤ n0 → build n0 edges = Some g →
  n g = n0 ∧ Z.of_nat (length (adj g)) = n0 + 1 ∧ Z.of_nat (length (deg g)) = n0 + 1 ∧
  vget (adj g) 0 = Some [] ∧ vget (deg g) 0 = Some 0.
Proof.
  intros Hn. unfold build.
  destruct (read_edges _ edges) as [aio|] eqn:Hr; simpl; [|done].
  intros [= <-]. simpl. destruct (read_edges_inv _ _ _ Hr) as [_ Hl].
  rewrite length_replicate in Hl. destruct aio as [|r0 rest]; simpl in *; [lia|].
  rewrite !length_fmap. split_and!; try done; lia.
Qed.
End Adjacency.

(** For a well-formed input, the row [adj[x]] of a node lists its neighbours
    in input order, the k-th entry (from 0) carrying the edge number k + 1,
    and [deg[x]] is the length of the row. *)
Theorem adjacency_in_input_order n0 edges g x :
  wf_input n0 edges → build n0 edges = Some g → 1 ≤ x ≤ n0 →
  ∃ row, vget (adj g) x = Some row ∧
    vget (deg g) x = Some (Z.of_nat (length row)) ∧
    row.*1 = neighbors edges x ∧
    ∀ (k : nat) p, row !! k = Some p → p.2 = Z.of_nat k + 1.
Proof.
  intros Hwf Hg Hx. destruct (build_spec n0 edges Hwf) as (g' & Hg' & _ & Hrows).
  assert (g' = g) as -> by congruence. destruct (Hrows x Hx) as [Hadj Hdeg].
  eexists. split; [exact Hadj|]. split_and!.
  - rewrite number_from_length. unfold pairs_of. by rewrite length_fmap.
  - apply number_from_fst.
  - intros k p Hp. rewrite (number_from_lookup _ _ _ _ Hp). lia.
Qed.

Lemma adjacency_in_input_order_witness :
  wf_input 3 triangle ∧ build 3 triangle = Some (mkGraph 3
    [[]; [(2, 1); (3, 2)]; [(1, 1); (3, 2)]; [(2, 1); (1, 2)]] [0; 2; 2; 2]) ∧
  1 ≤ 3 ≤ 3 ∧
  ∃ row, vget [[]; [(2, 1); (3, 2)]; [(1, 1); (3, 2)]; [(2, 1); (1, 2)]] 3 = Some row ∧
         row.*1 = neighbors triangle 3.
Proof.
  split; [apply triangle_wf|]. split; [reflexivity|]. split; [lia|].
  destruct (adjacency_in_input_order 3 triangle _ 3 triangle_wf eq_refl ltac:(lia))
    as (row & Hrow & _ & Hfst & _).
  exists row. split; [exact Hrow|exact Hfst].
Defined.

(** The adjacency vectors are those of an undirected multigraph: [y] occurs
    in [adj[x]] as often as [x] occurs in [adj[y]], and the degrees add up to
    twice the number of edges. *)
Theorem adjacency_undirected n0 edges g :
  wf_input n0 edges → build n0 edges = Some g →
  sumZ (deg g) = 2 * Z.of_nat (length edges) ∧
  ∀ x y rx ry, 1 ≤ x ≤ n0 → 1 ≤ y ≤ n0 →
    vget (adj g) x = Some rx → vget (adj g) y = Some ry →
    length (filter (λ v, v = y) rx.*1) = length (filter (λ v, v = x) ry.*1).
Proof.
  intros Hwf Hg. destruct (build_spec n0 edges Hwf) as (g' & Hg' & _ & Hrows).
  assert (g' = g) as -> by congruence. pose proof Hwf as (Hn & _ & _ & Hall).
  destruct (build_lengths n0 edges g ltac:(lia) Hg) as (_ & _ & Hlen & _ & Hd0).
  split.
  - rewrite (vector_by_lookup (deg g)
               (λ x, if x =? 0 then 0 else Z.of_nat (length (neighbors edges x)))).
    2: { intros x Hx. destruct (Z.eqb_spec x 0) as [->|]; [done|].
         apply Hrows. lia. }
    rewrite Hlen, seqZ_cons by lia. rewrite fmap_cons. cbn [sumZ].
    rewrite Z.eqb_refl.
    replace (Z.succ 0) with 1 by lia. replace (Z.pred (n0 + 1)) with n0 by lia.
    erewrite (list_fmap_ext _ (λ x, Z.of_nat (length (neighbors edges x)))).
    2: { intros i x [-> ?]%lookup_seqZ. destruct (Z.eqb_spec (1 + Z.of_nat i) 0); [lia|done]. }
    rewrite neighbors_total; [lia|apply NoDup_seqZ|].
    eapply Forall_impl; [exact Hall|]. simpl. intros e ?.
    rewrite !elem_of_seqZ. lia.
  - intros x y rx ry Hx Hy Hrx Hry.
    destruct (Hrows x Hx) as [Hax _]. destruct (Hrows y Hy) as [Hay _].
    assert (rx = number_from 1 (pairs_of (neighbors edges x))) as -> by congruence.
    assert (ry = number_from 1 (pairs_of (neighbors edges y))) as -> by congruence.
    rewrite !number_from_fst. apply neighbors_symmetric.
Qed.

Lemma adjacency_undirected_witness :
  wf_input 3 triangle ∧ build 3 triangle = Some (mkGraph 3
    [[]; [(2, 1); (3, 2)]; [(1, 1); (3, 2)]; [(2, 1); (1, 2)]] [0; 2; 2; 2]) ∧
  sumZ [0; 2; 2; 2] = 2 * Z.of_nat (length triangle).
Proof.
  split; [apply triangle_wf|]. split; [reflexivity|].
  exact (proj1 (adjacency_undirected 3 triangle _ triangle_wf eq_refl)).
Defined.



(** ** Exactness inside the window *)

(** When the search has ended, the tables are exact for the first [C] ticks
    up to the answer time: for a node [x] that some walk occupies at a time
    [t < C], [t <= ans.first], [min_t[x]] is the earliest time any walk is at
    [x], and [min_w[x][t - min_t[x]]] is the least wait of the walks that are
    at [x] at time [t]. *)
Theorem tables_exact_in_window n0 edges g c0 c x t w :
  wf_input n0 edges → build n0 edges = Some g → init n0 = Some c0 →
  rtc (step g) c0 c → pq c = [] →
  walk edges x t w → t < C → t ≤ (ans c).1 →
  ∃ m y, vget (min_t c) x = Some m ∧ m ≤ t ∧
    (∃ w0, walk edges x m w0) ∧ (∀ t' w', walk edges x t' w' → m ≤ t') ∧
    vget2 (min_w c) x (t - m) = Some y ∧
    walk edges x t y ∧ (∀ w', walk edges x t w' → y ≤ w').
Proof.
  intros Hwf Hg Hc0 Hrtc Hq Hwalk Ht Hans.
  destruct (reachable_inv n0 edges g c0 Hwf Hg Hc0 c Hrtc) as [[tc Hinv] Hcm].
  pose proof (reachable_tables_sound n0 edges g c0 Hwf Hg Hc0 c Hrtc) as Hsound.
  pose proof (walk_bounds _ _ _ _ Hwalk) as Hb.
  assert (∀ w', walk edges x t w' →
            ∃ m y, vget (min_t c) x = Some m ∧ m ≠ INF ∧ 0 ≤ m ≤ t ∧
                   vget2 (min_w c) x (t - m) = Some y ∧ y ≤ w' ∧ y ≠ INF) as Hcov.
  { intros w' Hw'. pose proof (walk_bounds _ _ _ _ Hw').
    eapply covered_entry; [done| |done|unfold INF, C in *; lia].
    by eapply final_covered. }
  destruct (Hcov w Hwalk) as (m & y & Hm & Hne & Hmt & Hy & Hyw & Hyne).
  exists m, y. split_and!; try done; try lia.
  - by destruct (inv_mt _ _ _ _ Hinv x m Hm Hne) as (_ & _ & _ & ?).
  - intros t' w' Hw'. destruct (decide (t ≤ t')) as [|Hlt]; [lia|].
    pose proof (walk_bounds _ _ _ _ Hw').
    destruct (covered_entry n0 edges c tc Hinv x t' w') as (m' & _ & Hm' & _ & ? & _);
      [eapply final_covered; [done..|lia|lia]|lia|unfold INF, C in *; lia|].
    assert (m' = m) by congruence. lia.
  - replace t with (m + (t - m)) at 1 by lia. by eapply Hsound.
  - intros w' Hw'. destruct (Hcov w' Hw') as (m' & y' & Hm' & _ & _ & Hy' & ? & _).
    assert (m' = m) as -> by congruence. assert (y' = y) by congruence. lia.
Qed.

Lemma one_node_wf : wf_input 1 [].
Proof. unfold wf_input, C, int_max. simpl. split_and!; try lia. constructor. Qed.

Lemma tables_exact_in_window_witness :
  wf_input 1 [] ∧ build 1 [] = Some tiny_graph ∧ init 1 = Some init_one ∧
  rtc (step tiny_graph) init_one after_two ∧ pq after_two = [] ∧
  walk [] 1 0 0 ∧ 0 < C ∧ 0 ≤ (ans after_two).1 ∧
  ∃ m y, vget (min_t after_two) 1 = Some m ∧ m ≤ 0 ∧
    (∃ w0, walk [] 1 m w0) ∧ (∀ t' w', walk [] 1 t' w' → m ≤ t') ∧
    vget2 (min_w after_two) 1 (0 - m) = Some y ∧
    walk [] 1 0 y ∧ (∀ w', walk [] 1 0 w' → y ≤ w').
Proof.
  assert (rtc (step tiny_graph) init_one after_two) as Hrtc.
  { eapply rtc_l; [apply one_node_first_step|]. apply rtc_once, one_node_second_step. }
  assert (walk [] 1 0 0) as Hw by constructor.
  assert (0 < C) as HC by (unfold C; lia).
  assert (0 ≤ (ans after_two).1) as Ha by (simpl; lia).
  split; [apply one_node_wf|]. split; [reflexivity|]. split; [reflexivity|].
  split; [exact Hrtc|]. split; [reflexivity|]. split; [exact Hw|].
  split; [exact HC|]. split; [exact Ha|].
  exact (tables_exact_in_window 1 [] tiny_graph init_one after_two 1 0 0
           one_node_wf eq_refl eq_refl Hrtc eq_refl Hw HC Ha).
Defined.
